(** * ConstantFolder (torch/csrc/jit/tensorexpr/constant_folder.h)

    A shallow embedding of the tensor-expression constant folder and the
    properties its specification states about it.

    Nodes of the IR are immutable heap objects compared by pointer in the
    source ([lhs != v->lhs()]).  Here a node is a tree that carries, at
    every node, the address of the object it stands for; two pointers are
    equal exactly when the trees are equal, addresses included.  Nodes
    built by the pass take their address from an allocation counter that
    is threaded through the pass, together with a trace of the nodes
    visited and of the nodes handed to the evaluator. *)

From Stdlib Require Import ZArith List String Bool Lia PeanoNat.
Import ListNotations.

Set Implicit Arguments.
Set Warnings "-register-all".

(** ** Scalar types and dtypes (types.h) *)

(** Modelled from the spec: the scalar type tags, "integer widths,
    floating widths, half precision": those the macro
    [AT_FORALL_SCALAR_TYPES_AND(Half, _)] gives [evaluateOp] a case for,
    and [Handle] for a tag that reaches its [default] branch. *)
Inductive ScalarType : Type :=
| Byte | Char | Short | Int | Long | Float | Double | Half | Handle.

Record Dtype : Type := mkDtype { scalar_type : ScalarType; lanes : nat }.

Definition kInt : Dtype := mkDtype Int 1.
Definition kFloat : Dtype := mkDtype Float 1.

Definition ScalarType_eq_dec (x y : ScalarType) : {x = y} + {x <> y}.
Proof. decide equality. Defined.

Definition Dtype_eq_dec (x y : Dtype) : {x = y} + {x <> y}.
Proof. decide equality; [apply Nat.eq_dec | apply ScalarType_eq_dec]. Defined.

(** ** Expression nodes (expr.h, ir.h) *)

Definition addr : Type := nat.

(** A C++ [float] is carried as its IEEE-754 binary32 bit pattern, so that
    [value == 1.0f] is the comparison with the one pattern of [1.0f]. *)
Definition float32 : Type := Z.
Definition float_one : float32 := 0x3F800000%Z.
Definition float_is_one (f : float32) : bool := Z.eqb f float_one.

(** [is_nan f]: the pattern [f] is a NaN of binary32: the eight exponent
    bits are all ones and the fraction is not zero. *)
Definition is_nan (f : float32) : bool :=
  Z.eqb (Z.land (Z.shiftr f 23) 255) 255
  && negb (Z.eqb (Z.land f 0x7FFFFF) 0).

Record VarNode : Type :=
  mkVar { var_addr : addr; name_hint : string; var_dtype : Dtype }.

(** The concrete classes derived from [BinaryOpNode<Op>]; only [Max] and
    [Min] have a [propagate_nans] member. *)
Inductive BinOp : Type :=
| Add | Sub | Mul | Div | Mod
| Max (propagate_nans : bool) | Min (propagate_nans : bool)
| And | Xor | Lshift | Rshift.

(** Modelled from the spec: [IRNodeType], the "operator kind": the
    eleven kinds [newBinaryOpOfType] names, and [kCompareSelect], a
    comparison, for a kind that reaches its [default] branch. *)
Inductive IRNodeType : Type :=
| kAdd | kSub | kMul | kDiv | kMod | kMax | kMin
| kAnd | kXor | kLshift | kRshift | kCompareSelect.

(** Modelled from the spec: some kinds of intrinsic call ("e.g. sqrt,
    sin"); the pass treats a kind as opaque but for its purity. *)
Inductive IntrinsicsOp : Type :=
| kSin | kCos | kExp | kLog | kSqrt | kPow | kFmod | kRand.

(** The node classes the pass has a method for, and those its rules
    inspect.  [Imm] stands for the immediates that have a class of their
    own per scalar type other than [Int] and [Float]. *)
Inductive Expr : Type :=
| IntImm (a : addr) (value : Z)
| FloatImm (a : addr) (value : float32)
| Imm (a : addr) (st : ScalarType) (value : Z)
| Var (v : VarNode)
| BinaryOp (a : addr) (op : BinOp) (lhs rhs : Expr)
| Cast (a : addr) (dt : Dtype) (src_value : Expr)
| Broadcast (a : addr) (value : Expr) (n : nat)
| Ramp (a : addr) (base stride : Expr) (n : nat)
| Intrinsics (a : addr) (op_type : IntrinsicsOp) (params : list Expr)
| Load (a : addr) (dt : Dtype) (base_handle : VarNode) (index mask : Expr).

Definition expr_type (op : BinOp) : IRNodeType :=
  match op with
  | Add => kAdd | Sub => kSub | Mul => kMul | Div => kDiv | Mod => kMod
  | Max _ => kMax | Min _ => kMin
  | And => kAnd | Xor => kXor | Lshift => kLshift | Rshift => kRshift
  end.

(** *** Pointer equality *)

Definition VarNode_eq_dec (x y : VarNode) : {x = y} + {x <> y}.
Proof.
  decide equality;
    [apply Dtype_eq_dec | apply string_dec | apply Nat.eq_dec].
Defined.

Definition BinOp_eq_dec (x y : BinOp) : {x = y} + {x <> y}.
Proof. decide equality; apply bool_dec. Defined.

Definition IntrinsicsOp_eq_dec (x y : IntrinsicsOp) : {x = y} + {x <> y}.
Proof. decide equality. Defined.

Fixpoint Expr_eq_dec (x y : Expr) {struct x} : {x = y} + {x <> y}.
Proof.
  decide equality;
    try apply Nat.eq_dec; try apply Z.eq_dec;
    try apply ScalarType_eq_dec; try apply VarNode_eq_dec;
    try apply BinOp_eq_dec; try apply Dtype_eq_dec;
    try apply IntrinsicsOp_eq_dec.
  apply (list_eq_dec Expr_eq_dec).
Defined.

(** [same_node x y] is the source's [x == y] on [const Expr*]. *)
Definition same_node (x y : Expr) : bool :=
  if Expr_eq_dec x y then true else false.

(** ** Node queries *)

(** Modelled from the spec: [Intrinsics::isPure()], the "purity flag" of
    an intrinsic call; the random generator is the impure one. *)
Definition isPure (op : IntrinsicsOp) : bool :=
  match op with kRand => false | _ => true end.

(** Modelled from the spec: [Expr::isConstant], declared outside this
    file.  "True iff the node is an immediate, or it is a pure
    operator/cast/intrinsic and all of its operand sub-expressions are
    constant"; a variable, a Load, a Broadcast and a Ramp are not. *)
Fixpoint isConstant (e : Expr) : bool :=
  match e with
  | IntImm _ _ | FloatImm _ _ | Imm _ _ _ => true
  | Var _ => false
  | BinaryOp _ _ l r => isConstant l && isConstant r
  | Cast _ _ s => isConstant s
  | Broadcast _ _ _ | Ramp _ _ _ _ => false
  | Intrinsics _ op ps => isPure op && forallb isConstant ps
  | Load _ _ _ _ _ => false
  end.

(** [dynamic_cast<const IntImm*>(e)] followed by [I->value() == k]. *)
Definition is_IntImm (k : Z) (e : Expr) : bool :=
  match e with IntImm _ v => Z.eqb v k | _ => false end.

(** [dynamic_cast<const FloatImm*>(e)] followed by [I->value() == 1.0f]. *)
Definition is_FloatImm_one (e : Expr) : bool :=
  match e with FloatImm _ v => float_is_one v | _ => false end.

Definition is_imm (e : Expr) : bool :=
  match e with IntImm _ _ | FloatImm _ _ | Imm _ _ _ => true | _ => false end.

(** ** The pass as a computation

    [M A] threads the allocation counter and the trace, and ends in a
    value, a thrown exception, or exhaustion of the recursion budget that
    makes the embedding a structural recursion. *)

(** Modelled from the spec: [unsupported_operator], the UnsupportedOperator
    condition of the error-handling section (exceptions.h is not part of
    this file); nothing below throws it.  [unsupported_dtype] is the one
    exception the source throws. *)
Inductive Exn : Type := unsupported_dtype | unsupported_operator.

Inductive Event : Type :=
| EvVisit (e : Expr)      (* [e->accept_mutator(this)] *)
| EvEval (e : Expr).      (* [evaluateOp(e)] *)

Record State : Type := mkState { next : addr; trace : list Event }.

Inductive Res (A : Type) : Type :=
| Ok (a : A)
| Throw (x : Exn)
| OutOfFuel.
Arguments Throw {A} x.
Arguments OutOfFuel {A}.

Definition M (A : Type) : Type := State -> Res A * State.

Definition ret {A} (a : A) : M A := fun s => (Ok a, s).

Definition bind {A B} (m : M A) (k : A -> M B) : M B :=
  fun s =>
    match m s with
    | (Ok a, s1) => k a s1
    | (Throw x, s1) => (Throw x, s1)
    | (OutOfFuel, s1) => (OutOfFuel, s1)
    end.

Notation "x <- m ;; k" := (bind m (fun x => k))
  (at level 61, m at next level, right associativity).

Definition throw {A} (x : Exn) : M A := fun s => (Throw x, s).
Definition out_of_fuel {A} : M A := fun s => (OutOfFuel, s).

Definition log (ev : Event) : M unit :=
  fun s => (Ok tt, mkState (next s) (ev :: trace s)).

(** [new T(...)]: the node is built at the next free address. *)
Definition alloc (mk : addr -> Expr) : M Expr :=
  fun s => (Ok (mk (next s)), mkState (S (next s)) (trace s)).

(** ** newBinaryOpOfType *)

Definition newBinaryOpOfType (expr_type : IRNodeType) (lhs rhs : Expr)
    (option : bool) : M Expr :=
  match expr_type with
  | kAdd => alloc (fun a => BinaryOp a Add lhs rhs)
  | kSub => alloc (fun a => BinaryOp a Sub lhs rhs)
  | kMul => alloc (fun a => BinaryOp a Mul lhs rhs)
  | kDiv => alloc (fun a => BinaryOp a Div lhs rhs)
  | kMod => alloc (fun a => BinaryOp a Mod lhs rhs)
  | kMax => alloc (fun a => BinaryOp a (Max option) lhs rhs)
  | kMin => alloc (fun a => BinaryOp a (Min option) lhs rhs)
  | kAnd => alloc (fun a => BinaryOp a And lhs rhs)
  | kXor => alloc (fun a => BinaryOp a Xor lhs rhs)
  | kLshift => alloc (fun a => BinaryOp a Lshift lhs rhs)
  | kRshift => alloc (fun a => BinaryOp a Rshift lhs rhs)
  | _ => throw unsupported_dtype
  end.

(** ** Nodes the pass leaves alone

    [no_identity op l r]: none of the identity rules of the method for
    [op] applies to the operands [l] and [r]. *)
Definition add_block_free (x y : Expr) : bool :=
  match x with
  | Broadcast _ b _ =>
      negb (is_IntImm 0 b)
      && match y with Ramp _ _ _ _ => false | _ => true end
  | _ => true
  end.

(** [dynamic_cast<const Broadcast*>(e)], then [dynamic_cast<const IntImm*>]
    of its value and [I->value() == k]: a block of the Mul method. *)
Definition is_Broadcast_IntImm (k : Z) (e : Expr) : bool :=
  match e with Broadcast _ b _ => is_IntImm k b | _ => false end.

Definition no_identity (op : BinOp) (l r : Expr) : bool :=
  match op with
  | Add => negb (is_IntImm 0 l) && negb (is_IntImm 0 r)
           && add_block_free l r && add_block_free r l
  | Sub => negb (is_IntImm 0 r)
  | Mul => negb (is_IntImm 1 l) && negb (is_IntImm 1 r)
           && negb (is_FloatImm_one l) && negb (is_FloatImm_one r)
           && negb (is_Broadcast_IntImm 1 l)
           && negb (is_Broadcast_IntImm 1 r)
  | Div => negb (is_IntImm 1 r)
  | _ => true
  end.

(** [folded e]: [e] has the shape of a result of the pass: below every
    node but a Cast the operands are folded, no identity rule applies, and
    no operator, cast or intrinsic call is left that the pass would hand
    to the evaluator. *)
Fixpoint folded (e : Expr) : bool :=
  match e with
  | IntImm _ _ | FloatImm _ _ | Imm _ _ _ | Var _ => true
  | BinaryOp _ op l r =>
      folded l && folded r && no_identity op l r
      && negb (isConstant l && isConstant r)
  | Cast _ _ s => negb (isConstant s)
  | Broadcast _ v _ => folded v
  | Ramp _ b st _ => folded b && folded st
  | Intrinsics _ op ps =>
      forallb folded ps && negb (forallb isConstant ps && isPure op)
  | Load _ _ _ i m => folded i && folded m
  end.

(** The option [mutate] passes to the factory for a node of class [op]. *)
Definition option_of (op : BinOp) : bool :=
  match op with Max pn | Min pn => pn | _ => false end.

Section ConstantFolder.

(** The dtype of a binary operator and of an intrinsic call is computed by
    their constructors from the dtypes of the operands ([BinaryOpDtype],
    [IntrinsicsDtype] in types.h and ir.h), and the value of a constant
    expression by [SimpleIREvaluator] (eval.h).  None of them is part of
    this file: they are parameters of the development.  A value is carried
    as a [Z]: the integer for an integral scalar type, the bit pattern for
    a floating one. *)
Variable BinaryOpDtype : Dtype -> Dtype -> Dtype.
Variable IntrinsicsDtype : IntrinsicsOp -> list Dtype -> Dtype.
Variable interp : Expr -> Z.

(** Modelled from the spec: [Expr::dtype()], the dtype each constructor
    (none of them part of this file) gives its node: that of the literal
    for an immediate, the declared one for a variable, a Cast and a Load,
    the element type of the operand across [lanes] lanes for a Broadcast
    and a Ramp. *)
Fixpoint dtype (e : Expr) : Dtype :=
  match e with
  | IntImm _ _ => kInt
  | FloatImm _ _ => kFloat
  | Imm _ st _ => mkDtype st 1
  | Var v => var_dtype v
  | BinaryOp _ _ l r => BinaryOpDtype (dtype l) (dtype r)
  | Cast _ dt _ => dt
  | Broadcast _ v n => mkDtype (scalar_type (dtype v)) n
  | Ramp _ b _ n => mkDtype (scalar_type (dtype b)) n
  | Intrinsics _ op ps => IntrinsicsDtype op (map dtype ps)
  | Load _ dt _ _ _ => dt
  end.

(** Modelled from the spec: [getImmediateByType], "a freshly constructed
    immediate node carrying that value at the same scalar type". *)
Definition getImmediateByType (st : ScalarType) (val : Z) (a : addr) : Expr :=
  match st with
  | Int => IntImm a val
  | Float => FloatImm a val
  | _ => Imm a st val
  end.

(** ** evaluateOp *)

Definition evaluateOp (v : Expr) : M Expr :=
  _ <- log (EvEval v) ;;
  match scalar_type (dtype v) with
  | Handle => throw unsupported_dtype
  | st => alloc (getImmediateByType st (interp v))
  end.

(** ** The mutate methods

    [rec] is [accept_mutator(this)], the recursive entry of the pass. *)
Section Mutate.

Variable rec : Expr -> M Expr.

(** The tail shared by the Add, Sub, Mul and Div methods and
    [mutateBinaryOp]: rebuild when a child changed, evaluate when both
    children are constant. *)
Definition rebuild_and_evaluate (v : Expr) (op : BinOp)
    (lhs0 rhs0 lhs rhs : Expr) (option : bool) : M Expr :=
  node <- (if negb (same_node lhs lhs0) || negb (same_node rhs rhs0)
           then newBinaryOpOfType (expr_type op) lhs rhs option
           else ret v) ;;
  if negb (isConstant lhs) || negb (isConstant rhs)
  then ret node
  else evaluateOp node.

(** One [if (const Broadcast* b = dynamic_cast<const Broadcast*>(x))] block
    of the Add method, [y] being the other operand; [None] when the block
    falls through. *)
Definition add_broadcast_block (x y : Expr) : option (M Expr) :=
  match x with
  | Broadcast _ b _ =>
      if is_IntImm 0 b then Some (ret y)
      else
        match y with
        | Ramp _ base stride n =>
            Some (sum <- alloc (fun a => BinaryOp a Add b base) ;;
                  r <- alloc (fun a => Ramp a sum stride n) ;;
                  rec r)
        | _ => None
        end
  | _ => None
  end.

Definition mutate_Add (v lhs0 rhs0 : Expr) : M Expr :=
  lhs <- rec lhs0 ;;
  rhs <- rec rhs0 ;;
  if is_IntImm 0 lhs then ret rhs
  else if is_IntImm 0 rhs then ret lhs
  else
    match add_broadcast_block lhs rhs with
    | Some m => m
    | None =>
        match add_broadcast_block rhs lhs with
        | Some m => m
        | None => rebuild_and_evaluate v Add lhs0 rhs0 lhs rhs false
        end
    end.

Definition mutate_Sub (v lhs0 rhs0 : Expr) : M Expr :=
  lhs <- rec lhs0 ;;
  rhs <- rec rhs0 ;;
  if is_IntImm 0 rhs then ret lhs
  else rebuild_and_evaluate v Sub lhs0 rhs0 lhs rhs false.

Definition mutate_Mul (v lhs0 rhs0 : Expr) : M Expr :=
  lhs <- rec lhs0 ;;
  rhs <- rec rhs0 ;;
  if is_IntImm 1 lhs then ret rhs
  else if is_IntImm 1 rhs then ret lhs
  else if is_FloatImm_one lhs then ret rhs
  else if is_FloatImm_one rhs then ret lhs
  else if is_Broadcast_IntImm 1 lhs then ret rhs
  else if is_Broadcast_IntImm 1 rhs then ret lhs
  else rebuild_and_evaluate v Mul lhs0 rhs0 lhs rhs false.

Definition mutate_Div (v lhs0 rhs0 : Expr) : M Expr :=
  lhs <- rec lhs0 ;;
  rhs <- rec rhs0 ;;
  if is_IntImm 1 rhs then ret lhs
  else rebuild_and_evaluate v Div lhs0 rhs0 lhs rhs false.

Definition mutateBinaryOp (v : Expr) (op : BinOp) (lhs rhs : Expr)
    (option : bool) : M Expr :=
  lhs_new <- rec lhs ;;
  rhs_new <- rec rhs ;;
  rebuild_and_evaluate v op lhs rhs lhs_new rhs_new option.

Definition mutate_Cast (v src_value : Expr) : M Expr :=
  if isConstant src_value then evaluateOp v else ret v.

(** The loop of the Intrinsics method: the new parameters, [changed] and
    [allConstant]. *)
Fixpoint mutate_params (ps : list Expr) : M (list Expr * bool * bool) :=
  match ps with
  | [] => ret ([], false, true)
  | p :: ps' =>
      new_child <- rec p ;;
      acc <- mutate_params ps' ;;
      let '(new_params, changed, allConstant) := acc in
      ret (new_child :: new_params,
           negb (same_node p new_child) || changed,
           isConstant new_child && allConstant)
  end.

Definition mutate_Intrinsics (v : Expr) (op : IntrinsicsOp)
    (params : list Expr) : M Expr :=
  acc <- mutate_params params ;;
  let '(new_params, changed, allConstant) := acc in
  node <- (if changed then alloc (fun a => Intrinsics a op new_params)
           else ret v) ;;
  if negb allConstant || negb (isPure op)
  then ret node
  else evaluateOp node.

Definition mutate_Load (v : Expr) (dt : Dtype) (base_handle : VarNode)
    (index mask : Expr) : M Expr :=
  new_index <- rec index ;;
  new_mask <- rec mask ;;
  if same_node new_index index && same_node new_mask mask
  then ret v
  else alloc (fun a => Load a dt base_handle new_index new_mask).

(** Modelled from the spec: the methods [ConstantFolder] inherits from
    [IRMutator] (ir_mutator.cpp is not part of this file), "the generic
    tree-rewrite dispatch mechanism": children are rewritten and the node
    is rebuilt only if a child changed. *)
Definition mutate_Broadcast (v value : Expr) (n : nat) : M Expr :=
  value_new <- rec value ;;
  if same_node value_new value then ret v
  else alloc (fun a => Broadcast a value_new n).

(** Modelled from the spec: the method [IRMutator] has for a Ramp, as
    for a Broadcast. *)
Definition mutate_Ramp (v base stride : Expr) (n : nat) : M Expr :=
  base_new <- rec base ;;
  stride_new <- rec stride ;;
  if same_node base_new base && same_node stride_new stride then ret v
  else alloc (fun a => Ramp a base_new stride_new n).

(** [v->accept_mutator(this)] after the recursion budget is checked: the
    double dispatch to the method of the node's class.  An immediate and a
    variable meet the method inherited from [IRMutator], which returns the
    node. *)
Definition dispatch (v : Expr) : M Expr :=
  match v with
  | IntImm _ _ | FloatImm _ _ | Imm _ _ _ | Var _ => ret v
  | BinaryOp _ Add l r => mutate_Add v l r
  | BinaryOp _ Sub l r => mutate_Sub v l r
  | BinaryOp _ Mul l r => mutate_Mul v l r
  | BinaryOp _ Div l r => mutate_Div v l r
  | BinaryOp _ (Max pn) l r => mutateBinaryOp v (Max pn) l r pn
  | BinaryOp _ (Min pn) l r => mutateBinaryOp v (Min pn) l r pn
  | BinaryOp _ op l r => mutateBinaryOp v op l r false
  | Cast _ _ s => mutate_Cast v s
  | Broadcast _ x n => mutate_Broadcast v x n
  | Ramp _ b st n => mutate_Ramp v b st n
  | Intrinsics _ op ps => mutate_Intrinsics v op ps
  | Load _ dt h i m => mutate_Load v dt h i m
  end.

End Mutate.

(** ** fold: the pass applied to a node *)

Fixpoint fold (fuel : nat) (e : Expr) : M Expr :=
  match fuel with
  | O => out_of_fuel
  | S n => _ <- log (EvVisit e) ;; dispatch (fold n) e
  end.

(** ** Well-formed nodes

    The invariants the node constructors establish, as far as the pass
    relies on them: the operands of a binary operator have one dtype, which
    is the operator's (the constructors cast the operands to it), a cast
    keeps the lane count, the operand of a Broadcast and the base of a Ramp
    are scalars, an intrinsic call on scalars is a scalar, and an [Imm] is
    an immediate of a scalar type other than [Int] and [Float], which have
    their own classes. *)
Definition scalar_node (e : Expr) : bool := Nat.eqb (lanes (dtype e)) 1.

Fixpoint well_typed (e : Expr) : bool :=
  match e with
  | IntImm _ _ | FloatImm _ _ | Var _ => true
  | Imm _ st _ =>
      match st with Int | Float | Handle => false | _ => true end
  | BinaryOp _ _ l r =>
      well_typed l && well_typed r
      && (if Dtype_eq_dec (dtype l) (dtype r) then true else false)
  | Cast _ dt s => well_typed s && Nat.eqb (lanes dt) (lanes (dtype s))
  | Broadcast _ v _ => well_typed v && scalar_node v
  | Ramp _ b st _ => well_typed b && well_typed st && scalar_node b
  | Intrinsics _ op ps =>
      forallb well_typed ps
      && implb (forallb scalar_node ps) (scalar_node e)
  | Load _ _ _ i m => well_typed i && well_typed m
  end.

(** [evaluable e]: no node of [e] has a scalar type outside the cases of
    [evaluateOp]. *)
Definition supported (e : Expr) : bool :=
  match scalar_type (dtype e) with Handle => false | _ => true end.

Fixpoint evaluable (e : Expr) : bool :=
  supported e &&
  match e with
  | BinaryOp _ _ l r => evaluable l && evaluable r
  | Cast _ _ s => evaluable s
  | Broadcast _ v _ => evaluable v
  | Ramp _ b st _ => evaluable b && evaluable st
  | Intrinsics _ _ ps => forallb evaluable ps
  | Load _ _ _ i m => evaluable i && evaluable m
  | _ => true
  end.

(** ** What the pass relies on from the evaluator and the constructors

    The identity rules of the pass are sound only for an evaluator in
    which they are identities.  [evaluator_laws] collects what is used:
    a binary operator whose operands have one dtype has that dtype; the
    value of an immediate is the value it carries; the value of an
    operator or of a call depends on the operands through their dtypes
    and values only; and [0 + x], [x + 0], [x - 0], [1 * x], [x * 1],
    [x / 1] on [Int] operands have the value of [x], and so have
    [1.0f * x] and [x * 1.0f] on a [Float] operand [x] whose value is not
    a NaN (on a NaN the product need not keep the bit pattern of [x]). *)
Record evaluator_laws : Prop := {
  BinaryOpDtype_same : forall d, BinaryOpDtype d d = d;
  interp_IntImm : forall a v, interp (IntImm a v) = v;
  interp_FloatImm : forall a v, interp (FloatImm a v) = v;
  interp_Imm : forall a st v, interp (Imm a st v) = v;
  interp_BinaryOp : forall a a' op l r l' r',
    dtype l' = dtype l -> interp l' = interp l ->
    dtype r' = dtype r -> interp r' = interp r ->
    interp (BinaryOp a' op l' r') = interp (BinaryOp a op l r);
  interp_Intrinsics : forall a a' op ps ps',
    map dtype ps' = map dtype ps -> map interp ps' = map interp ps ->
    interp (Intrinsics a' op ps') = interp (Intrinsics a op ps);
  interp_Add_zero_l : forall a a0 x,
    dtype x = kInt -> interp (BinaryOp a Add (IntImm a0 0) x) = interp x;
  interp_Add_zero_r : forall a a0 x,
    dtype x = kInt -> interp (BinaryOp a Add x (IntImm a0 0)) = interp x;
  interp_Sub_zero_r : forall a a0 x,
    dtype x = kInt -> interp (BinaryOp a Sub x (IntImm a0 0)) = interp x;
  interp_Mul_one_l : forall a a0 x,
    dtype x = kInt -> interp (BinaryOp a Mul (IntImm a0 1) x) = interp x;
  interp_Mul_one_r : forall a a0 x,
    dtype x = kInt -> interp (BinaryOp a Mul x (IntImm a0 1)) = interp x;
  interp_Div_one_r : forall a a0 x,
    dtype x = kInt -> interp (BinaryOp a Div x (IntImm a0 1)) = interp x;
  interp_Mul_fone_l : forall a a0 x,
    dtype x = kFloat -> is_nan (interp x) = false ->
    interp (BinaryOp a Mul (FloatImm a0 float_one) x) = interp x;
  interp_Mul_fone_r : forall a a0 x,
    dtype x = kFloat -> is_nan (interp x) = false ->
    interp (BinaryOp a Mul x (FloatImm a0 float_one)) = interp x
}.

(** [not_nan e]: [e] is not of scalar type [Float], or its value is not a
    NaN; [nan_free e]: every node of [e] is so. *)
Definition not_nan (e : Expr) : bool :=
  match scalar_type (dtype e) with
  | Float => negb (is_nan (interp e))
  | _ => true
  end.

Fixpoint nan_free (e : Expr) : bool :=
  not_nan e &&
  match e with
  | BinaryOp _ _ l r => nan_free l && nan_free r
  | Cast _ _ s => nan_free s
  | Broadcast _ v _ => nan_free v
  | Ramp _ b st _ => nan_free b && nan_free st
  | Intrinsics _ _ ps => forallb nan_free ps
  | Load _ _ _ i m => nan_free i && nan_free m
  | _ => true
  end.

(** ** The pass as a relation

    [folds e r]: the pass may turn [e] into [r].  The addresses of the
    nodes the pass builds are left open; every rule is one return of the
    source. *)
Definition evaluated (v r : Expr) : Prop :=
  supported v = true /\
  exists a, r = getImmediateByType (scalar_type (dtype v)) (interp v) a.

Inductive folds : Expr -> Expr -> Prop :=
| folds_leaf e :
    match e with
    | IntImm _ _ | FloatImm _ _ | Imm _ _ _ | Var _ => True
    | _ => False
    end -> folds e e
| folds_Add_zero_l a l r l' r' :
    folds l l' -> folds r r' -> is_IntImm 0 l' = true ->
    folds (BinaryOp a Add l r) r'
| folds_Add_zero_r a l r l' r' :
    folds l l' -> folds r r' -> is_IntImm 0 r' = true ->
    folds (BinaryOp a Add l r) l'
| folds_Add_Broadcast_zero_l a l r l' r' :
    folds l l' -> folds r r' -> is_Broadcast_IntImm 0 l' = true ->
    folds (BinaryOp a Add l r) r'
| folds_Add_Broadcast_zero_r a l r l' r' :
    folds l l' -> folds r r' -> is_Broadcast_IntImm 0 r' = true ->
    folds (BinaryOp a Add l r) l'
| folds_Add_Broadcast_Ramp a l r ab b m ar base stride k a1 a2 res :
    folds l (Broadcast ab b m) -> folds r (Ramp ar base stride k) ->
    folds (Ramp a2 (BinaryOp a1 Add b base) stride k) res ->
    folds (BinaryOp a Add l r) res
| folds_Add_Ramp_Broadcast a l r ab b m ar base stride k a1 a2 res :
    folds l (Ramp ar base stride k) -> folds r (Broadcast ab b m) ->
    folds (Ramp a2 (BinaryOp a1 Add b base) stride k) res ->
    folds (BinaryOp a Add l r) res
| folds_Sub_zero a l r l' r' :
    folds l l' -> folds r r' -> is_IntImm 0 r' = true ->
    folds (BinaryOp a Sub l r) l'
| folds_Mul_one_l a l r l' r' :
    folds l l' -> folds r r' ->
    is_IntImm 1 l' || is_FloatImm_one l' || is_Broadcast_IntImm 1 l' = true ->
    folds (BinaryOp a Mul l r) r'
| folds_Mul_one_r a l r l' r' :
    folds l l' -> folds r r' ->
    is_IntImm 1 r' || is_FloatImm_one r' || is_Broadcast_IntImm 1 r' = true ->
    folds (BinaryOp a Mul l r) l'
| folds_Div_one a l r l' r' :
    folds l l' -> folds r r' -> is_IntImm 1 r' = true ->
    folds (BinaryOp a Div l r) l'
| folds_rebuild a a' op l r l' r' :
    folds l l' -> folds r r' -> no_identity op l' r' = true ->
    isConstant l' && isConstant r' = false ->
    folds (BinaryOp a op l r) (BinaryOp a' op l' r')
| folds_evaluate a a' op l r l' r' res :
    folds l l' -> folds r r' -> no_identity op l' r' = true ->
    isConstant l' && isConstant r' = true ->
    evaluated (BinaryOp a' op l' r') res ->
    folds (BinaryOp a op l r) res
| folds_Cast_evaluate a dt src res :
    isConstant src = true -> evaluated (Cast a dt src) res ->
    folds (Cast a dt src) res
| folds_Cast_keep a dt src :
    isConstant src = false -> folds (Cast a dt src) (Cast a dt src)
| folds_Broadcast a a' v v' n :
    folds v v' -> folds (Broadcast a v n) (Broadcast a' v' n)
| folds_Ramp a a' b st b' st' n :
    folds b b' -> folds st st' -> folds (Ramp a b st n) (Ramp a' b' st' n)
| folds_Intrinsics_keep a a' op ps ps' :
    folds_params ps ps' -> forallb isConstant ps' && isPure op = false ->
    folds (Intrinsics a op ps) (Intrinsics a' op ps')
| folds_Intrinsics_evaluate a a' op ps ps' res :
    folds_params ps ps' -> forallb isConstant ps' && isPure op = true ->
    evaluated (Intrinsics a' op ps') res ->
    folds (Intrinsics a op ps) res
| folds_Load a a' dt h i m i' m' :
    folds i i' -> folds m m' ->
    folds (Load a dt h i m) (Load a' dt h i' m')
with folds_params : list Expr -> list Expr -> Prop :=
| folds_nil : folds_params [] []
| folds_cons p p' ps ps' :
    folds p p' -> folds_params ps ps' -> folds_params (p :: ps) (p' :: ps').

Scheme folds_ind2 := Minimality for folds Sort Prop
  with folds_params_ind2 := Minimality for folds_params Sort Prop.

Combined Scheme folds_mutind from folds_ind2, folds_params_ind2.

(** [collapsed e r]: [r] is the immediate of the value and scalar type
    of [e]. *)
Definition collapsed (e r : Expr) : Prop :=
  exists a, r = getImmediateByType (scalar_type (dtype e)) (interp e) a.

(** ** The rules as the specification words them *)

(** The Cast rule of the specification: "folds its source operand; if the
    (possibly-rewritten) source is constant, invokes the Constant Evaluator
    to convert it to the cast's target scalar type; otherwise returns the
    cast unchanged". *)
Definition spec_mutate_Cast (rec : Expr -> M Expr) (v : Expr) (dt : Dtype)
    (src_value : Expr) : M Expr :=
  src_new <- rec src_value ;;
  if isConstant src_new
  then (if same_node src_new src_value then evaluateOp v
        else c <- alloc (fun a => Cast a dt src_new) ;; evaluateOp c)
  else ret v.

(** The Broadcast/Ramp rule of the specification: "build
    [Ramp(b + base, stride, lanes)] and re-fold it". *)
Definition build_ramp_and_refold (rec : Expr -> M Expr)
    (b base stride : Expr) (n : nat) : M Expr :=
  sum <- alloc (fun a => BinaryOp a Add b base) ;;
  r <- alloc (fun a => Ramp a sum stride n) ;;
  rec r.

End ConstantFolder.

(** ** Structure of a node, addresses apart *)

Fixpoint strip (e : Expr) : Expr :=
  match e with
  | IntImm _ v => IntImm 0 v
  | FloatImm _ v => FloatImm 0 v
  | Imm _ st v => Imm 0 st v
  | Var v => Var v
  | BinaryOp _ op l r => BinaryOp 0 op (strip l) (strip r)
  | Cast _ dt s => Cast 0 dt (strip s)
  | Broadcast _ v n => Broadcast 0 (strip v) n
  | Ramp _ b st n => Ramp 0 (strip b) (strip st) n
  | Intrinsics _ op ps => Intrinsics 0 op (map strip ps)
  | Load _ dt h i m => Load 0 dt h (strip i) (strip m)
  end.

(** [struct_eq x y]: [x] and [y] are structurally equal. *)
Definition struct_eq (x y : Expr) : Prop := strip x = strip y.

Fixpoint size (e : Expr) : nat :=
  match e with
  | IntImm _ _ | FloatImm _ _ | Imm _ _ _ | Var _ => 1
  | BinaryOp _ _ l r => S (size l + size r)
  | Cast _ _ s => S (size s)
  | Broadcast _ v _ => S (size v)
  | Ramp _ b st _ => S (size b + size st)
  | Intrinsics _ _ ps => S (list_sum (map size ps))
  | Load _ _ _ i m => S (size i + size m)
  end.

(** The evaluator calls of a trace, oldest last. *)
Definition evals (t : list Event) : list Expr :=
  flat_map (fun ev => match ev with EvEval e => [e] | EvVisit _ => [] end) t.

Definition visits (t : list Event) : list Expr :=
  flat_map (fun ev => match ev with EvVisit e => [e] | EvEval _ => [] end) t.

(** What [evaluateOp] requires of the node it is given: every operand is
    constant and an intrinsic call is pure. *)
Definition eval_precondition (e : Expr) : bool :=
  match e with
  | BinaryOp _ _ l r => isConstant l && isConstant r
  | Cast _ _ s => isConstant s
  | Intrinsics _ op ps => isPure op && forallb isConstant ps
  | _ => false
  end.

(** [same_outcome o1 o2]: two runs end alike: with structurally equal
    nodes or with the same failure, after the same allocations and the
    same calls of the evaluator. *)
Definition same_outcome (o1 o2 : Res Expr * State) : Prop :=
  match fst o1, fst o2 with
  | Ok r1, Ok r2 => struct_eq r1 r2
  | Throw x, Throw y => x = y
  | OutOfFuel, OutOfFuel => True
  | _, _ => False
  end /\
  next (snd o1) = next (snd o2) /\
  evals (trace (snd o1)) = evals (trace (snd o2)).

(** [finishes m]: [m] never exhausts the recursion budget. *)
Definition finishes {A} (m : M A) : Prop :=
  forall s, fst (m s) <> OutOfFuel.

(** [sat m P]: every value [m] returns satisfies [P]. *)
Definition sat {A} (m : M A) (P : A -> Prop) : Prop :=
  forall s a s', m s = (Ok a, s') -> P a.

(** [returns m P]: from every state, [m] returns a value, and it
    satisfies [P]. *)
Definition returns {A} (m : M A) (P : A -> Prop) : Prop :=
  forall s, exists a s', m s = (Ok a, s') /\ P a.

(** [extends_ok s s']: the trace of [s'] extends that of [s] by events
    among which every evaluator call meets [eval_precondition]. *)
Definition extends_ok (s s' : State) : Prop :=
  exists d, trace s' = d ++ trace s /\
            Forall (fun v => eval_precondition v = true) (evals d).

Definition traces_ok {A} (m : M A) : Prop :=
  forall s, extends_ok s (snd (m s)).

(** The kinds [newBinaryOpOfType] has a case for. *)
Definition in_enumeration (k : IRNodeType) : bool :=
  match k with kCompareSelect => false | _ => true end.

(** The node [newBinaryOpOfType] builds for kind [k], if it has a case. *)
Definition BinOp_of_kind (k : IRNodeType) (flag : bool) : option BinOp :=
  match k with
  | kAdd => Some Add | kSub => Some Sub | kMul => Some Mul
  | kDiv => Some Div | kMod => Some Mod
  | kMax => Some (Max flag) | kMin => Some (Min flag)
  | kAnd => Some And | kXor => Some Xor
  | kLshift => Some Lshift | kRshift => Some Rshift
  | kCompareSelect => None
  end.

(** The state after [fold] has entered node [e]. *)
Definition visited (e : Expr) (s : State) : State :=
  mkState (next s) (EvVisit e :: trace s).

(** ** Structural induction on nodes *)

Section Expr_induction.

Variable P : Expr -> Prop.
Hypothesis H_IntImm : forall a v, P (IntImm a v).
Hypothesis H_FloatImm : forall a v, P (FloatImm a v).
Hypothesis H_Imm : forall a st v, P (Imm a st v).
Hypothesis H_Var : forall v, P (Var v).
Hypothesis H_BinaryOp : forall a op l r, P l -> P r -> P (BinaryOp a op l r).
Hypothesis H_Cast : forall a dt s, P s -> P (Cast a dt s).
Hypothesis H_Broadcast : forall a v n, P v -> P (Broadcast a v n).
Hypothesis H_Ramp : forall a b st n, P b -> P st -> P (Ramp a b st n).
Hypothesis H_Intrinsics :
  forall a op ps, Forall P ps -> P (Intrinsics a op ps).
Hypothesis H_Load : forall a dt h i m, P i -> P m -> P (Load a dt h i m).

Fixpoint Expr_nested_ind (e : Expr) : P e :=
  match e with
  | IntImm a v => H_IntImm a v
  | FloatImm a v => H_FloatImm a v
  | Imm a st v => H_Imm a st v
  | Var v => H_Var v
  | BinaryOp a op l r =>
      H_BinaryOp a op (Expr_nested_ind l) (Expr_nested_ind r)
  | Cast a dt s => H_Cast a dt (Expr_nested_ind s)
  | Broadcast a v n => H_Broadcast a n (Expr_nested_ind v)
  | Ramp a b st n => H_Ramp a n (Expr_nested_ind b) (Expr_nested_ind st)
  | Intrinsics a op ps =>
      H_Intrinsics a op
        ((fix all (l : list Expr) : Forall P l :=
            match l with
            | [] => Forall_nil P
            | p :: l' => Forall_cons p (Expr_nested_ind p) (all l')
            end) ps)
  | Load a dt h i m => H_Load a dt h (Expr_nested_ind i) (Expr_nested_ind m)
  end.

End Expr_induction.

(** ** Sample parameters, for the concrete runs below *)

Module Sample.

Definition BinaryOpDtype (a b : Dtype) : Dtype := a.

Definition IntrinsicsDtype (op : IntrinsicsOp) (ds : list Dtype) : Dtype :=
  hd kFloat ds.

(** A small evaluator, enough to run the pass: arithmetic on unbounded
    integers for the operators on integral operands; on [Float] operands,
    which are bit patterns, only the product with [1.0f]; the operand
    itself through a cast; [0] elsewhere. *)
Fixpoint interp (e : Expr) : Z :=
  match e with
  | IntImm _ v | FloatImm _ v | Imm _ _ v => v
  | BinaryOp _ op l r =>
      match op with
      | Add => interp l + interp r
      | Sub => interp l - interp r
      | Mul =>
          match scalar_type (dtype BinaryOpDtype IntrinsicsDtype l) with
          | Float | Double | Half =>
              if float_is_one (interp l) then interp r
              else if float_is_one (interp r) then interp l
              else 0
          | _ => interp l * interp r
          end
      | Div => Z.quot (interp l) (interp r)
      | Mod => Z.rem (interp l) (interp r)
      | Max _ => Z.max (interp l) (interp r)
      | Min _ => Z.min (interp l) (interp r)
      | And => Z.land (interp l) (interp r)
      | Xor => Z.lxor (interp l) (interp r)
      | Lshift => Z.shiftl (interp l) (interp r)
      | Rshift => Z.shiftr (interp l) (interp r)
      end
  | Cast _ _ s => interp s
  | _ => 0
  end%Z.

Definition fold : nat -> Expr -> M Expr :=
  fold BinaryOpDtype IntrinsicsDtype interp.

Definition s0 : State := mkState 100 [].

Definition var_i : Expr := Var (mkVar 1 "i" kInt).
Definition var_x : Expr := Var (mkVar 2 "x" kFloat).

(** [(1 * i) + (2 + 3)], on integers. *)
Definition sum_expr : Expr :=
  BinaryOp 1 Add (BinaryOp 2 Mul (IntImm 3 1) var_i)
                 (BinaryOp 4 Add (IntImm 5 2) (IntImm 6 3)).

(** [(1 * 7) + (5 - 0)], a constant expression. *)
Definition const_expr : Expr :=
  BinaryOp 1 Add (BinaryOp 2 Mul (IntImm 3 1) (IntImm 4 7))
                 (BinaryOp 5 Sub (IntImm 6 5) (IntImm 7 0)).

(** [float(i + 0)]. *)
Definition cast_src : Expr := BinaryOp 3 Add var_i (IntImm 5 0).
Definition cast_expr : Expr := Cast 4 kFloat cast_src.

(** [Broadcast(5, 4) + Ramp(i, 1, 4)] and [Broadcast(0, 4) + Ramp(i, 1, 4)]. *)
Definition ramp : Expr := Ramp 6 var_i (IntImm 7 1) 4.
Definition bcast (k : Z) : Expr := Broadcast 5 (IntImm 3 k) 4.
Definition bcast_ramp (k : Z) : Expr := BinaryOp 2 Add (bcast k) ramp.

(** [buf[i + 0]] under the mask [1]. *)
Definition buf : VarNode := mkVar 11 "buf" (mkDtype Handle 1).
Definition load_expr : Expr :=
  Load 10 kFloat buf (BinaryOp 12 Add var_i (IntImm 13 0)) (IntImm 14 1).

End Sample.

(** ** Further notions about computations *)

(** [quiet m P]: from every state, [m] returns a value that satisfies
    [P], having allocated nothing and called the evaluator not once. *)
Definition quiet {A} (m : M A) (P : A -> Prop) : Prop :=
  forall s, exists a s',
    m s = (Ok a, s') /\ P a /\ next s' = next s /\
    evals (trace s') = evals (trace s).

(** [fold_each rec ps ps' s s1]: [ps'] are the nodes [rec] returns for
    the nodes [ps], taken one after the other from state [s] on, and
    [s1] is the state after the last. *)
Fixpoint fold_each (rec : Expr -> M Expr) (ps ps' : list Expr)
    (s s1 : State) : Prop :=
  match ps, ps' with
  | [], [] => s1 = s
  | p :: ps0, p' :: ps0' =>
      exists sm, rec p s = (Ok p', sm) /\ fold_each rec ps0 ps0' sm s1
  | _, _ => False
  end.

(** [no_throw m]: [m] throws no exception. *)
Definition no_throw {A} (m : M A) : Prop :=
  forall s x, fst (m s) <> Throw x.

(** [throws_unsupported m]: when [m] throws, it throws
    [unsupported_dtype], right after a call of the evaluator on a node
    whose scalar type [evaluateOp] has no case for. *)
Definition throws_unsupported
    (BinaryOpDtype : Dtype -> Dtype -> Dtype)
    (IntrinsicsDtype : IntrinsicsOp -> list Dtype -> Dtype)
    {A} (m : M A) : Prop :=
  forall s x s',
    m s = (Throw x, s') ->
    x = unsupported_dtype /\
    exists v t, trace s' = EvEval v :: t /\
                supported BinaryOpDtype IntrinsicsDtype v = false.

(** Further nodes for the concrete runs. *)
Module More_samples.

Import Sample.

(** [handle(0)], a cast to a scalar type the evaluator has no case
    for. *)
Definition handle_cast : Expr := Cast 3 (mkDtype Handle 1) (IntImm 2 0).

(** [rand(1 + 2)]: an impure call on a constant argument. *)
Definition rand_call : Expr :=
  Intrinsics 1 kRand [BinaryOp 2 Add (IntImm 3 1) (IntImm 4 2)].

(** [max(i, 2 + 3)] propagating NaNs, and [0 - i]. *)
Definition max_expr : Expr :=
  BinaryOp 1 (Max true) var_i (BinaryOp 4 Add (IntImm 5 2) (IntImm 6 3)).
Definition neg_expr : Expr := BinaryOp 1 Sub (IntImm 2 0) var_i.

(** A four-lane variable, and [Broadcast(1, 4) * v]. *)
Definition var_v : Expr := Var (mkVar 7 "v" (mkDtype Int 4)).
Definition scaled : Expr :=
  BinaryOp 1 Mul (Broadcast 2 (IntImm 3 1) 4) var_v.

End More_samples.

(** * Properties *)

(** ** Reasoning about computations *)

Lemma same_node_true (x y : Expr) : same_node x y = true <-> x = y.
Proof.
  unfold same_node; destruct (Expr_eq_dec x y); split; congruence.
Qed.

Lemma same_node_refl (x : Expr) : same_node x x = true.
Proof. apply same_node_true; reflexivity. Qed.

Lemma bind_Ok {A B} (m : M A) (k : A -> M B) s b s' :
  bind m k s = (Ok b, s') ->
  exists a s1, m s = (Ok a, s1) /\ k a s1 = (Ok b, s').
Proof.
  unfold bind; destruct (m s) as [[a | x |] s1]; try discriminate.
  intros H; exists a, s1; auto.
Qed.

Lemma bind_step {A B} (m : M A) (k : A -> M B) s a s1 :
  m s = (Ok a, s1) -> bind m k s = k a s1.
Proof. unfold bind; intros ->; reflexivity. Qed.

Lemma sat_ret {A} (a : A) (P : A -> Prop) : P a -> sat (ret a) P.
Proof. intros H s b s' E; inversion E; subst; exact H. Qed.

Lemma sat_bind {A B} (m : M A) (k : A -> M B) (P : A -> Prop)
    (Q : B -> Prop) :
  sat m P -> (forall a, P a -> sat (k a) Q) -> sat (bind m k) Q.
Proof.
  intros Hm Hk s b s' E.
  apply bind_Ok in E; destruct E as (a & s1 & E1 & E2).
  exact (Hk a (Hm _ _ _ E1) _ _ _ E2).
Qed.

Lemma sat_alloc (mk : addr -> Expr) (P : Expr -> Prop) :
  (forall a, P (mk a)) -> sat (alloc mk) P.
Proof. intros H s b s' E; inversion E; subst; apply H. Qed.

Lemma sat_throw {A} (x : Exn) (P : A -> Prop) : sat (throw x) P.
Proof. intros s b s' E; discriminate E. Qed.

Lemma sat_weaken {A} (m : M A) (P Q : A -> Prop) :
  sat m P -> (forall a, P a -> Q a) -> sat m Q.
Proof. intros H HPQ s a s' E; apply HPQ; exact (H _ _ _ E). Qed.

Lemma sat_log_bind {B} (ev : Event) (k : unit -> M B) (Q : B -> Prop) :
  sat (k tt) Q -> sat (bind (log ev) k) Q.
Proof.
  intros H; apply sat_bind with (P := fun _ => True).
  - intros s a s' _; exact I.
  - intros [] _; exact H.
Qed.

Lemma sat_out_of_fuel {A} (P : A -> Prop) : sat out_of_fuel P.
Proof. intros s b s' E; discriminate E. Qed.

Section Properties.

Variable BinaryOpDtype : Dtype -> Dtype -> Dtype.
Variable IntrinsicsDtype : IntrinsicsOp -> list Dtype -> Dtype.
Variable interp : Expr -> Z.

Local Abbreviation foldE := (fold BinaryOpDtype IntrinsicsDtype interp).
Local Abbreviation evalOp := (evaluateOp BinaryOpDtype IntrinsicsDtype interp).
Local Abbreviation dtypeE := (dtype BinaryOpDtype IntrinsicsDtype).
Local Abbreviation foldsE := (folds BinaryOpDtype IntrinsicsDtype interp).
Local Abbreviation evaluatedE :=
  (evaluated BinaryOpDtype IntrinsicsDtype interp).

Lemma fold_S (n : nat) (e : Expr) (s : State) :
  foldE (S n) e s
  = dispatch BinaryOpDtype IntrinsicsDtype interp (foldE n) e (visited e s).
Proof. reflexivity. Qed.

Lemma fold_Ok_S (n : nat) (e r : Expr) (s s' : State) :
  foldE n e s = (Ok r, s') -> exists k, n = S k.
Proof. destruct n; [discriminate | eauto]. Qed.

(** ** The operator factory *)

(** C9 (as amended).  For every kind of the fixed enumeration the factory
    builds a fresh node of that kind around the two operands; for a kind
    outside it, it throws [unsupported_dtype], the exception of the
    evaluator, and allocates nothing. *)
Theorem newBinaryOpOfType_enumeration (k : IRNodeType) (lhs rhs : Expr)
    (option : bool) (s : State) :
  if in_enumeration k
  then exists op,
         expr_type op = k /\
         newBinaryOpOfType k lhs rhs option s
         = (Ok (BinaryOp (next s) op lhs rhs),
            mkState (S (next s)) (trace s))
  else newBinaryOpOfType k lhs rhs option s = (Throw unsupported_dtype, s).
Proof.
  destruct k; simpl; try reflexivity;
    eexists; (split; [| reflexivity]); reflexivity.
Qed.

(** ** Cast *)

(** C3 (as amended).  The Cast method does not fold the source operand:
    when the source, as it stands, is constant the cast goes to the
    evaluator, and otherwise the cast is returned unchanged.  One unit of
    recursion budget is enough, whatever the source is. *)
Theorem fold_Cast (n : nat) (a : addr) (dt : Dtype) (src : Expr)
    (s : State) :
  foldE (S n) (Cast a dt src) s
  = (if isConstant src
     then evalOp (Cast a dt src)
     else ret (Cast a dt src)) (visited (Cast a dt src) s).
Proof. reflexivity. Qed.

(** C10.  A Cast whose source is not constant is returned as the very
    node it was: the pass does not enter the source, allocates nothing
    and evaluates nothing, so that the only event is the visit of the
    Cast itself. *)
Theorem fold_Cast_nonconstant (n : nat) (a : addr) (dt : Dtype)
    (src : Expr) (s : State) :
  isConstant src = false ->
  foldE (S n) (Cast a dt src) s
  = (Ok (Cast a dt src),
     mkState (next s) (EvVisit (Cast a dt src) :: trace s)).
Proof.
  intros H. rewrite fold_S. simpl. unfold mutate_Cast. rewrite H.
  reflexivity.
Qed.

(** ** Load *)

(** C6.  Whenever the pass returns from a Load, it has folded the index
    and then the mask, and nothing else; the result is a Load of the same
    dtype and base handle around the folded index and mask, hence never an
    immediate; and when both came back as the nodes they were, the result
    is the original Load and nothing was allocated. *)
Theorem fold_Load (n : nat) (a : addr) (dt : Dtype) (h : VarNode)
    (i m r : Expr) (s s' : State) :
  foldE n (Load a dt h i m) s = (Ok r, s') ->
  exists k i' s1 m' s2,
    n = S k /\
    foldE k i (visited (Load a dt h i m) s) = (Ok i', s1) /\
    foldE k m s1 = (Ok m', s2) /\
    trace s' = trace s2 /\
    is_imm r = false /\
    (exists a', r = Load a' dt h i' m') /\
    (i' = i -> m' = m -> r = Load a dt h i m /\ s' = s2).
Proof.
  intros H. destruct (fold_Ok_S _ _ _ H) as [k ->].
  rewrite fold_S in H. simpl in H. unfold mutate_Load in H.
  apply bind_Ok in H. destruct H as (i' & s1 & Hi & H).
  apply bind_Ok in H. destruct H as (m' & s2 & Hm & H).
  exists k, i', s1, m', s2. repeat split; try assumption.
  - destruct (same_node i' i && same_node m' m); inversion H; reflexivity.
  - destruct (same_node i' i && same_node m' m); inversion H; reflexivity.
  - destruct (same_node i' i && same_node m' m) eqn:E.
    + apply andb_prop in E. destruct E as [Ei Em].
      apply same_node_true in Ei, Em. subst.
      inversion H. eauto.
    + inversion H. eauto.
  - subst. rewrite !same_node_refl in H. inversion H. reflexivity.
  - subst. rewrite !same_node_refl in H. inversion H. reflexivity.
Qed.

(** ** Add of a Broadcast and a Ramp *)

(** C5 (as amended).  When the operands of an Add fold to [Broadcast(b)]
    and [Ramp(base, stride, lanes)], in either order: if [b] is not the
    integer immediate 0, the pass builds [b + base] and
    [Ramp(b + base, stride, lanes)] and returns what folding that Ramp
    returns; if [b] is the integer immediate 0, the pass returns the Ramp
    operand as it is and builds nothing. *)
Theorem fold_Add_Broadcast_Ramp (n : nat) (a : addr) (l r l' r' : Expr)
    (s s1 s2 : State) (ab ar : addr) (b base stride : Expr) (m k : nat) :
  foldE n l (visited (BinaryOp a Add l r) s) = (Ok l', s1) ->
  foldE n r s1 = (Ok r', s2) ->
  (l' = Broadcast ab b m /\ r' = Ramp ar base stride k) \/
  (l' = Ramp ar base stride k /\ r' = Broadcast ab b m) ->
  foldE (S n) (BinaryOp a Add l r) s
  = if is_IntImm 0 b
    then (Ok (Ramp ar base stride k), s2)
    else build_ramp_and_refold (foldE n) b base stride k s2.
Proof.
  intros Hl Hr Hshape. rewrite fold_S. simpl. unfold mutate_Add.
  rewrite (bind_step _ _ _ Hl), (bind_step _ _ _ Hr).
  destruct Hshape as [[-> ->] | [-> ->]]; simpl;
    destruct (is_IntImm 0 b); reflexivity.
Qed.

(** ** The evaluator is called on constant operands only *)

Lemma extends_ok_refl (s : State) : extends_ok s s.
Proof. exists []; split; [reflexivity | constructor]. Qed.

Lemma extends_ok_trans (s1 s2 s3 : State) :
  extends_ok s1 s2 -> extends_ok s2 s3 -> extends_ok s1 s3.
Proof.
  intros (d1 & E1 & F1) (d2 & E2 & F2). exists (d2 ++ d1). split.
  - rewrite E2, E1, app_assoc. reflexivity.
  - unfold evals in *. rewrite flat_map_app. apply Forall_app; auto.
Qed.

Lemma traces_ok_ret {A} (a : A) : traces_ok (ret a).
Proof. intros s; apply extends_ok_refl. Qed.

Lemma traces_ok_throw {A} (x : Exn) : traces_ok (@throw A x).
Proof. intros s; apply extends_ok_refl. Qed.

Lemma traces_ok_out_of_fuel {A} : traces_ok (@out_of_fuel A).
Proof. intros s; apply extends_ok_refl. Qed.

Lemma traces_ok_alloc (mk : addr -> Expr) : traces_ok (alloc mk).
Proof. intros s; exists []; split; [reflexivity | constructor]. Qed.

Lemma traces_ok_visit (e : Expr) : traces_ok (log (EvVisit e)).
Proof. intros s; exists [EvVisit e]; split; [reflexivity | constructor]. Qed.

Lemma traces_ok_bind_sat {A B} (m : M A) (k : A -> M B) (P : A -> Prop) :
  traces_ok m -> sat m P -> (forall a, P a -> traces_ok (k a)) ->
  traces_ok (bind m k).
Proof.
  intros Hm HP Hk s. unfold bind. specialize (Hm s).
  destruct (m s) as [[a | x |] s1] eqn:E; simpl in *; try exact Hm.
  eapply extends_ok_trans; [exact Hm |]. apply Hk. exact (HP _ _ _ E).
Qed.

Lemma traces_ok_bind {A B} (m : M A) (k : A -> M B) :
  traces_ok m -> (forall a, traces_ok (k a)) -> traces_ok (bind m k).
Proof.
  intros Hm Hk. apply traces_ok_bind_sat with (P := fun _ => True); auto.
  intros s a s' _; exact I.
Qed.

Lemma traces_ok_evaluateOp (v : Expr) :
  eval_precondition v = true -> traces_ok (evalOp v).
Proof.
  intros Hv s. unfold evaluateOp, bind, log. simpl.
  exists [EvEval v]. split.
  - destruct (scalar_type (dtypeE v)); reflexivity.
  - simpl. constructor; [exact Hv | constructor].
Qed.

Lemma traces_ok_newBinaryOpOfType (k : IRNodeType) (l r : Expr) (o : bool) :
  traces_ok (newBinaryOpOfType k l r o).
Proof.
  destruct k; simpl; first [apply traces_ok_alloc | apply traces_ok_throw].
Qed.

Lemma sat_newBinaryOpOfType (k : IRNodeType) (l r : Expr) (o : bool) :
  sat (newBinaryOpOfType k l r o)
      (fun node => exists a op, node = BinaryOp a op l r /\
                                BinOp_of_kind k o = Some op).
Proof.
  destruct k; simpl;
    first [apply sat_throw | apply sat_alloc; intros; eauto].
Qed.

Section Dispatch_traces.

Variable rec : Expr -> M Expr.
Hypothesis rec_ok : forall e, traces_ok (rec e).

Lemma traces_ok_rebuild (a : addr) (op0 op : BinOp)
    (lhs0 rhs0 lhs rhs : Expr) (o : bool) :
  traces_ok (rebuild_and_evaluate BinaryOpDtype IntrinsicsDtype interp
               (BinaryOp a op0 lhs0 rhs0) op lhs0 rhs0 lhs rhs o).
Proof.
  unfold rebuild_and_evaluate.
  apply traces_ok_bind_sat
    with (P := fun node => exists a' op', node = BinaryOp a' op' lhs rhs).
  - destruct (negb (same_node lhs lhs0) || negb (same_node rhs rhs0));
      [apply traces_ok_newBinaryOpOfType | apply traces_ok_ret].
  - destruct (negb (same_node lhs lhs0) || negb (same_node rhs rhs0)) eqn:E.
    + eapply sat_weaken; [apply sat_newBinaryOpOfType |].
      intros node (a' & op' & -> & _); eauto.
    + apply sat_ret. apply orb_false_elim in E. destruct E as [E1 E2].
      apply negb_false_iff, same_node_true in E1, E2. subst; eauto.
  - intros node (a' & op' & ->).
    destruct (negb (isConstant lhs) || negb (isConstant rhs)) eqn:E.
    + apply traces_ok_ret.
    + apply traces_ok_evaluateOp. simpl.
      apply orb_false_elim in E. destruct E as [E1 E2].
      apply negb_false_iff in E1, E2. rewrite E1, E2. reflexivity.
Qed.

Lemma traces_ok_add_broadcast_block (x y : Expr) (m : M Expr) :
  add_broadcast_block rec x y = Some m -> traces_ok m.
Proof.
  unfold add_broadcast_block. destruct x; try discriminate.
  destruct (is_IntImm 0 x).
  - intros E; inversion E. apply traces_ok_ret.
  - destruct y; try discriminate. intros E; inversion E.
    apply traces_ok_bind; [apply traces_ok_alloc |]. intros sum.
    apply traces_ok_bind; [apply traces_ok_alloc |]. intros r.
    apply rec_ok.
Qed.

Lemma sat_mutate_params (ps : list Expr) :
  sat (mutate_params rec ps)
      (fun acc => let '(new_params, changed, allConstant) := acc in
                  allConstant = forallb isConstant new_params /\
                  (changed = false -> new_params = ps)).
Proof.
  induction ps as [| p ps IH]; simpl.
  - apply sat_ret. auto.
  - apply sat_bind with (P := fun _ => True);
      [intros s a s' _; exact I |].
    intros new_child _. eapply sat_bind; [exact IH |].
    intros [[nps ch] ac] [Hac Hch]. apply sat_ret. split.
    + simpl. rewrite Hac. reflexivity.
    + intros E. apply orb_false_elim in E. destruct E as [E1 E2].
      apply negb_false_iff, same_node_true in E1.
      rewrite (Hch E2), E1. reflexivity.
Qed.

Lemma traces_ok_mutate_params (ps : list Expr) :
  traces_ok (mutate_params rec ps).
Proof.
  induction ps as [| p ps IH]; simpl.
  - apply traces_ok_ret.
  - apply traces_ok_bind; [apply rec_ok |]. intros c.
    apply traces_ok_bind; [exact IH |]. intros [[nps ch] ac].
    apply traces_ok_ret.
Qed.

Ltac binary_children :=
  apply traces_ok_bind; [apply rec_ok |]; intros lhs;
  apply traces_ok_bind; [apply rec_ok |]; intros rhs.

Lemma traces_ok_dispatch (e : Expr) :
  traces_ok (dispatch BinaryOpDtype IntrinsicsDtype interp rec e).
Proof.
  destruct e as [a v | a v | a st v | v | a op l r | a dt src | a v n
                 | a b st n | a op ps | a dt h i m]; simpl;
    try apply traces_ok_ret.
  - destruct op; try (unfold mutateBinaryOp; binary_children;
                      apply traces_ok_rebuild).
    + unfold mutate_Add. binary_children.
      destruct (is_IntImm 0 lhs); [apply traces_ok_ret |].
      destruct (is_IntImm 0 rhs); [apply traces_ok_ret |].
      destruct (add_broadcast_block rec lhs rhs) eqn:E1;
        [exact (traces_ok_add_broadcast_block _ _ E1) |].
      destruct (add_broadcast_block rec rhs lhs) eqn:E2;
        [exact (traces_ok_add_broadcast_block _ _ E2) |].
      apply traces_ok_rebuild.
    + unfold mutate_Sub. binary_children.
      destruct (is_IntImm 0 rhs); [apply traces_ok_ret |].
      apply traces_ok_rebuild.
    + unfold mutate_Mul. binary_children.
      repeat match goal with
             | |- traces_ok (if ?c then _ else _) =>
                 destruct c; [apply traces_ok_ret |]
             end.
      apply traces_ok_rebuild.
    + unfold mutate_Div. binary_children.
      destruct (is_IntImm 1 rhs); [apply traces_ok_ret |].
      apply traces_ok_rebuild.
  - unfold mutate_Cast. destruct (isConstant src) eqn:E.
    + apply traces_ok_evaluateOp. exact E.
    + apply traces_ok_ret.
  - unfold mutate_Broadcast.
    apply traces_ok_bind; [apply rec_ok |]. intros v'.
    destruct (same_node v' v); [apply traces_ok_ret | apply traces_ok_alloc].
  - unfold mutate_Ramp. binary_children.
    destruct (same_node lhs b && same_node rhs st);
      [apply traces_ok_ret | apply traces_ok_alloc].
  - unfold mutate_Intrinsics.
    eapply traces_ok_bind_sat;
      [apply traces_ok_mutate_params | apply sat_mutate_params |].
    intros [[nps ch] ac] [Hac Hch].
    apply traces_ok_bind_sat
      with (P := fun node => exists a', node = Intrinsics a' op nps).
    + destruct ch; [apply traces_ok_alloc | apply traces_ok_ret].
    + destruct ch; [apply sat_alloc; eauto |].
      apply sat_ret. rewrite (Hch eq_refl). eauto.
    + intros node [a' ->].
      destruct (negb ac || negb (isPure op)) eqn:E; [apply traces_ok_ret |].
      apply traces_ok_evaluateOp. simpl.
      apply orb_false_elim in E. destruct E as [E1 E2].
      apply negb_false_iff in E1, E2. rewrite E2, <- Hac, E1. reflexivity.
  - unfold mutate_Load. binary_children.
    destruct (same_node lhs i && same_node rhs m);
      [apply traces_ok_ret | apply traces_ok_alloc].
Qed.

End Dispatch_traces.

Lemma traces_ok_fold (n : nat) : forall e, traces_ok (foldE n e).
Proof.
  induction n as [| n IH]; intros e.
  - apply traces_ok_out_of_fuel.
  - simpl. apply traces_ok_bind; [apply traces_ok_visit |]. intros _.
    apply traces_ok_dispatch. exact IH.
Qed.

(** C4.  Whatever the node and however the pass ends, each call of
    [evaluateOp] it has made was on a node all of whose operands are
    constant and which, if an intrinsic call, is pure. *)
Theorem evaluateOp_only_on_constants (n : nat) (e : Expr) (s : State) :
  exists d,
    trace (snd (foldE n e s)) = d ++ trace s /\
    Forall (fun v => eval_precondition v = true) (evals d).
Proof. exact (traces_ok_fold n e s). Qed.

(** ** The pass computes what the relation allows *)

Lemma sat_evaluateOp (v : Expr) : sat (evalOp v) (evaluatedE v).
Proof.
  intros s r s' E. unfold evaluateOp, bind, log in E. simpl in E.
  unfold evaluated, supported.
  destruct (scalar_type (dtypeE v)); inversion E;
    (split; [reflexivity | eexists; reflexivity]).
Qed.

Lemma BinOp_of_kind_option_of (op : BinOp) :
  BinOp_of_kind (expr_type op) (option_of op) = Some op.
Proof. destruct op; reflexivity. Qed.

Lemma add_broadcast_block_None (rec : Expr -> M Expr) (x y : Expr) :
  add_broadcast_block rec x y = None -> add_block_free x y = true.
Proof.
  destruct x; simpl; try reflexivity.
  destruct (is_IntImm 0 x); [discriminate |].
  destruct y; simpl; try reflexivity. discriminate.
Qed.

Lemma add_broadcast_block_Some (rec : Expr -> M Expr) (x y : Expr)
    (m : M Expr) :
  add_broadcast_block rec x y = Some m ->
  (is_Broadcast_IntImm 0 x = true /\ m = ret y) \/
  (exists ab b n ar base stride k,
     x = Broadcast ab b n /\ y = Ramp ar base stride k /\
     is_IntImm 0 b = false /\
     m = build_ramp_and_refold rec b base stride k).
Proof.
  destruct x; simpl; try discriminate.
  destruct (is_IntImm 0 x) eqn:E.
  - intros H; inversion H; auto.
  - destruct y; try discriminate. intros H; inversion H.
    right. repeat eexists. exact E.
Qed.

Section Dispatch_sound.

Variable rec : Expr -> M Expr.
Hypothesis rec_sound : forall e, sat (rec e) (foldsE e).

Lemma sat_rebuild (a : addr) (op : BinOp) (l r l' r' : Expr) (o : bool) :
  foldsE l l' -> foldsE r r' -> no_identity op l' r' = true ->
  BinOp_of_kind (expr_type op) o = Some op ->
  sat (rebuild_and_evaluate BinaryOpDtype IntrinsicsDtype interp
         (BinaryOp a op l r) op l r l' r' o)
      (foldsE (BinaryOp a op l r)).
Proof.
  intros Hl Hr Hid Ho. unfold rebuild_and_evaluate.
  apply sat_bind with (P := fun node => exists a', node = BinaryOp a' op l' r').
  - destruct (negb (same_node l' l) || negb (same_node r' r)) eqn:E.
    + eapply sat_weaken; [apply sat_newBinaryOpOfType |].
      intros node (a' & op' & -> & Hop). exists a'. congruence.
    + apply sat_ret. apply orb_false_elim in E. destruct E as [E1 E2].
      apply negb_false_iff, same_node_true in E1, E2. subst; eauto.
  - intros node [a' ->]. rewrite <- negb_andb.
    destruct (isConstant l' && isConstant r') eqn:E; simpl.
    + eapply sat_weaken; [apply sat_evaluateOp |]. intros res Hres.
      eapply folds_evaluate; eauto.
    + apply sat_ret. apply folds_rebuild; assumption.
Qed.

Lemma sat_build_ramp_and_refold (b base stride : Expr) (k : nat) :
  sat (build_ramp_and_refold rec b base stride k)
      (fun res => exists a1 a2,
           foldsE (Ramp a2 (BinaryOp a1 Add b base) stride k) res).
Proof.
  unfold build_ramp_and_refold.
  apply sat_bind with (P := fun sum => exists a1, sum = BinaryOp a1 Add b base);
    [apply sat_alloc; eauto |].
  intros sum [a1 ->].
  apply sat_bind
    with (P := fun x => exists a2, x = Ramp a2 (BinaryOp a1 Add b base) stride k);
    [apply sat_alloc; eauto |].
  intros x [a2 ->]. eapply sat_weaken; [apply rec_sound |]. eauto.
Qed.

Lemma sat_mutate_params_folds (ps : list Expr) :
  sat (mutate_params rec ps)
      (fun acc => folds_params BinaryOpDtype IntrinsicsDtype interp
                    ps (fst (fst acc))).
Proof.
  induction ps as [| p ps IH]; simpl.
  - apply sat_ret. constructor.
  - eapply sat_bind; [apply rec_sound |]. intros p' Hp.
    eapply sat_bind; [exact IH |]. intros [[nps ch] ac] Hps.
    apply sat_ret. constructor; assumption.
Qed.

Lemma sat_and {A} (m : M A) (P Q : A -> Prop) :
  sat m P -> sat m Q -> sat m (fun a => P a /\ Q a).
Proof. intros HP HQ s a s' E; split; eauto. Qed.

Ltac fold_children l' r' Hl Hr :=
  eapply sat_bind; [apply rec_sound |]; intros l' Hl;
  eapply sat_bind; [apply rec_sound |]; intros r' Hr.

Lemma sat_dispatch (e : Expr) :
  sat (dispatch BinaryOpDtype IntrinsicsDtype interp rec e) (foldsE e).
Proof.
  destruct e as [a v | a v | a st v | v | a op l r | a dt src | a v n
                 | a b st n | a op ps | a dt h i m]; simpl;
    try (apply sat_ret; apply folds_leaf; exact I).
  - destruct op;
      try (unfold mutateBinaryOp; fold_children l' r' Hl Hr;
           apply sat_rebuild; auto).
    + unfold mutate_Add. fold_children l' r' Hl Hr.
      destruct (is_IntImm 0 l') eqn:E1;
        [apply sat_ret; eapply folds_Add_zero_l; eauto |].
      destruct (is_IntImm 0 r') eqn:E2;
        [apply sat_ret; eapply folds_Add_zero_r; eauto |].
      destruct (add_broadcast_block rec l' r') as [m1 |] eqn:B1.
      { apply add_broadcast_block_Some in B1.
        destruct B1 as [[Hz ->] | (ab & b & n & ar & base & stride & k
                                   & -> & -> & _ & ->)].
        - apply sat_ret. eapply folds_Add_Broadcast_zero_l; eauto.
        - eapply sat_weaken; [apply sat_build_ramp_and_refold |].
          intros res (a1 & a2 & H). eapply folds_Add_Broadcast_Ramp; eauto. }
      destruct (add_broadcast_block rec r' l') as [m2 |] eqn:B2.
      { apply add_broadcast_block_Some in B2.
        destruct B2 as [[Hz ->] | (ab & b & n & ar & base & stride & k
                                   & -> & -> & _ & ->)].
        - apply sat_ret. eapply folds_Add_Broadcast_zero_r; eauto.
        - eapply sat_weaken; [apply sat_build_ramp_and_refold |].
          intros res (a1 & a2 & H). eapply folds_Add_Ramp_Broadcast; eauto. }
      apply sat_rebuild; auto. simpl.
      rewrite E1, E2, (add_broadcast_block_None _ _ _ B1),
        (add_broadcast_block_None _ _ _ B2). reflexivity.
    + unfold mutate_Sub. fold_children l' r' Hl Hr.
      destruct (is_IntImm 0 r') eqn:E;
        [apply sat_ret; eapply folds_Sub_zero; eauto |].
      apply sat_rebuild; auto. simpl. rewrite E. reflexivity.
    + unfold mutate_Mul. fold_children l' r' Hl Hr.
      destruct (is_IntImm 1 l') eqn:E1;
        [apply sat_ret; eapply folds_Mul_one_l; eauto; rewrite E1;
         reflexivity |].
      destruct (is_IntImm 1 r') eqn:E2;
        [apply sat_ret; eapply folds_Mul_one_r; eauto; rewrite E2;
         reflexivity |].
      destruct (is_FloatImm_one l') eqn:E3;
        [apply sat_ret; eapply folds_Mul_one_l; eauto; rewrite E1, E3;
         reflexivity |].
      destruct (is_FloatImm_one r') eqn:E4;
        [apply sat_ret; eapply folds_Mul_one_r; eauto; rewrite E2, E4;
         reflexivity |].
      destruct (is_Broadcast_IntImm 1 l') eqn:E5;
        [apply sat_ret; eapply folds_Mul_one_l; eauto; rewrite E1, E3, E5;
         reflexivity |].
      destruct (is_Broadcast_IntImm 1 r') eqn:E6;
        [apply sat_ret; eapply folds_Mul_one_r; eauto; rewrite E2, E4, E6;
         reflexivity |].
      apply sat_rebuild; auto. simpl.
      rewrite E1, E2, E3, E4, E5, E6. reflexivity.
    + unfold mutate_Div. fold_children l' r' Hl Hr.
      destruct (is_IntImm 1 r') eqn:E;
        [apply sat_ret; eapply folds_Div_one; eauto |].
      apply sat_rebuild; auto. simpl. rewrite E. reflexivity.
  - unfold mutate_Cast. destruct (isConstant src) eqn:E.
    + eapply sat_weaken; [apply sat_evaluateOp |]. intros res H.
      apply folds_Cast_evaluate; assumption.
    + apply sat_ret. apply folds_Cast_keep. exact E.
  - unfold mutate_Broadcast.
    eapply sat_bind; [apply rec_sound |]. intros v' Hv.
    destruct (same_node v' v) eqn:E.
    + apply same_node_true in E. subst. apply sat_ret.
      apply folds_Broadcast. exact Hv.
    + apply sat_alloc. intros a'. apply folds_Broadcast. exact Hv.
  - unfold mutate_Ramp. fold_children b' st' Hb Hst.
    destruct (same_node b' b && same_node st' st) eqn:E.
    + apply andb_prop in E. destruct E as [E1 E2].
      apply same_node_true in E1, E2. subst. apply sat_ret.
      apply folds_Ramp; assumption.
    + apply sat_alloc. intros a'. apply folds_Ramp; assumption.
  - unfold mutate_Intrinsics.
    eapply sat_bind;
      [apply sat_and; [apply sat_mutate_params_folds
                      | apply (sat_mutate_params rec)] |].
    intros [[nps ch] ac] [Hps [Hac Hch]]. simpl in Hps.
    apply sat_bind with (P := fun node => exists a', node = Intrinsics a' op nps).
    + destruct ch; [apply sat_alloc; eauto |].
      apply sat_ret. rewrite (Hch eq_refl). eauto.
    + intros node [a' ->]. rewrite <- negb_andb, Hac.
      destruct (forallb isConstant nps && isPure op) eqn:E; simpl.
      * eapply sat_weaken; [apply sat_evaluateOp |]. intros res H.
        eapply folds_Intrinsics_evaluate; eauto.
      * apply sat_ret. apply folds_Intrinsics_keep; assumption.
  - unfold mutate_Load. fold_children i' m' Hi Hm.
    destruct (same_node i' i && same_node m' m) eqn:E.
    + apply andb_prop in E. destruct E as [E1 E2].
      apply same_node_true in E1, E2. subst. apply sat_ret.
      apply folds_Load; assumption.
    + apply sat_alloc. intros a'. apply folds_Load; assumption.
Qed.

End Dispatch_sound.

Lemma fold_sound (n : nat) : forall e, sat (foldE n e) (foldsE e).
Proof.
  induction n as [| n IH]; intros e.
  - apply sat_out_of_fuel.
  - simpl. apply sat_log_bind. apply sat_dispatch. exact IH.
Qed.

(** ** Results of the pass are folded *)

Lemma getImmediateByType_imm (st : ScalarType) (val : Z) (a : addr) :
  is_imm (getImmediateByType st val a) = true.
Proof. destruct st; reflexivity. Qed.

Lemma is_imm_folded (e : Expr) : is_imm e = true -> folded e = true.
Proof. destruct e; simpl; congruence. Qed.

Lemma evaluated_imm (v r : Expr) : evaluatedE v r -> is_imm r = true.
Proof. intros [_ [a ->]]. apply getImmediateByType_imm. Qed.

Lemma folds_folded_both :
  (forall e r, foldsE e r -> folded r = true) /\
  (forall ps ps',
      folds_params BinaryOpDtype IntrinsicsDtype interp ps ps' ->
      forallb folded ps' = true).
Proof.
  apply folds_mutind; intros; simpl; auto;
    try (apply is_imm_folded; eapply evaluated_imm; eassumption);
    repeat match goal with
           | H : _ = true |- _ => rewrite H
           | H : _ = false |- _ => rewrite H
           end; auto.
  destruct e; simpl; tauto.
Qed.

Lemma folds_folded (e r : Expr) : foldsE e r -> folded r = true.
Proof. apply folds_folded_both. Qed.

Lemma folded_constant_imm (e : Expr) :
  folded e = true -> isConstant e = true -> is_imm e = true.
Proof.
  destruct e; simpl; try congruence.
  - intros H C. rewrite C in H. rewrite andb_false_r in H. discriminate.
  - intros H C. rewrite C in H. discriminate.
  - intros H C. rewrite andb_comm in C. rewrite C in H.
    rewrite andb_false_r in H. discriminate.
Qed.

(** ** Folding keeps the dtype of a well-formed node *)

Section Typed.

Hypothesis BinaryOpDtype_idem : forall d, BinaryOpDtype d d = d.

Local Abbreviation wt := (well_typed BinaryOpDtype IntrinsicsDtype).
Local Abbreviation scalar := (scalar_node BinaryOpDtype IntrinsicsDtype).

Lemma Dtype_ext (d1 d2 : Dtype) :
  scalar_type d1 = scalar_type d2 -> lanes d1 = lanes d2 -> d1 = d2.
Proof. destruct d1, d2; simpl; congruence. Qed.

Lemma wt_BinaryOp (a : addr) (op : BinOp) (l r : Expr) :
  wt (BinaryOp a op l r) = true ->
  wt l = true /\ wt r = true /\ dtypeE l = dtypeE r.
Proof.
  simpl. intros H. apply andb_prop in H. destruct H as [H H3].
  apply andb_prop in H. destruct H as [H1 H2].
  destruct (Dtype_eq_dec (dtypeE l) (dtypeE r)); [auto | discriminate].
Qed.

Lemma wt_BinaryOp_intro (a : addr) (op : BinOp) (l r : Expr) :
  wt l = true -> wt r = true -> dtypeE l = dtypeE r ->
  wt (BinaryOp a op l r) = true.
Proof.
  simpl. intros -> -> E.
  destruct (Dtype_eq_dec (dtypeE l) (dtypeE r)); [reflexivity | contradiction].
Qed.

Lemma dtype_BinaryOp (a : addr) (op : BinOp) (l r : Expr) :
  dtypeE l = dtypeE r -> dtypeE (BinaryOp a op l r) = dtypeE r.
Proof. simpl. intros ->. apply BinaryOpDtype_idem. Qed.

Lemma scalar_iff (e : Expr) : scalar e = true <-> lanes (dtypeE e) = 1.
Proof. unfold scalar_node. apply Nat.eqb_eq. Qed.

Lemma is_imm_scalar (e : Expr) : is_imm e = true -> scalar e = true.
Proof. destruct e; simpl; try discriminate; reflexivity. Qed.

Lemma forallb_scalar_dtype (ps ps' : list Expr) :
  map dtypeE ps' = map dtypeE ps ->
  forallb scalar ps' = forallb scalar ps.
Proof.
  revert ps'. induction ps as [| p ps IH]; intros [| p' ps'] H;
    simpl in *; try discriminate; [reflexivity |].
  inversion H. unfold scalar_node at 1 3. rewrite H1. f_equal. auto.
Qed.

Lemma constant_scalar (e : Expr) :
  wt e = true -> isConstant e = true -> scalar e = true.
Proof.
  induction e as [a v | a v | a st v | v | a op l IHl r IHr | a dt s0 IHs
                  | a v n IHv | a b st n IHb IHst | a op ps IHps
                  | a dt h i m IHi IHm] using Expr_nested_ind;
    try reflexivity; try discriminate.
  - intros W C. apply wt_BinaryOp in W. destruct W as (Wl & Wr & E).
    simpl in C. apply andb_prop in C. destruct C as [Cl Cr].
    apply scalar_iff. rewrite (dtype_BinaryOp a op _ _ E).
    apply scalar_iff. auto.
  - simpl. intros W C. apply andb_prop in W. destruct W as [W E].
    apply Nat.eqb_eq in E. apply scalar_iff. simpl. rewrite E.
    apply scalar_iff. auto.
  - simpl. intros W C. apply andb_prop in W. destruct W as [W I].
    apply andb_prop in C. destruct C as [_ C].
    assert (A : forallb scalar ps = true).
    { clear I. induction IHps as [| p ps Hp _ IH]; [reflexivity |].
      simpl in *. apply andb_prop in W, C. destruct W, C.
      rewrite Hp, IH; auto. }
    rewrite A in I. exact I.
Qed.

Lemma evaluated_typed (v r : Expr) :
  evaluatedE v r -> scalar v = true ->
  wt r = true /\ dtypeE r = dtypeE v.
Proof.
  intros [S [a ->]] L. apply scalar_iff in L. unfold supported in S.
  destruct (dtypeE v) as [st n] eqn:E. simpl in *. subst n.
  destruct st; try discriminate; auto.
Qed.

Lemma folds_typed_both :
  (forall e r, foldsE e r ->
     wt e = true -> wt r = true /\ dtypeE r = dtypeE e) /\
  (forall ps ps',
     folds_params BinaryOpDtype IntrinsicsDtype interp ps ps' ->
     forallb wt ps = true ->
     forallb wt ps' = true /\ map dtypeE ps' = map dtypeE ps).
Proof.
  apply folds_mutind.
  - auto.
  - (* Add, left operand 0 *)
    intros a l r l' r' _ IHl _ IHr _ W.
    apply wt_BinaryOp in W. destruct W as (Wl & Wr & E).
    destruct (IHr Wr) as [W' D']. split; [exact W' |].
    rewrite (dtype_BinaryOp a Add _ _ E). exact D'.
  - intros a l r l' r' _ IHl _ IHr _ W.
    apply wt_BinaryOp in W. destruct W as (Wl & Wr & E).
    destruct (IHl Wl) as [W' D']. split; [exact W' |].
    rewrite (dtype_BinaryOp a Add _ _ E). congruence.
  - intros a l r l' r' _ IHl _ IHr _ W.
    apply wt_BinaryOp in W. destruct W as (Wl & Wr & E).
    destruct (IHr Wr) as [W' D']. split; [exact W' |].
    rewrite (dtype_BinaryOp a Add _ _ E). exact D'.
  - intros a l r l' r' _ IHl _ IHr _ W.
    apply wt_BinaryOp in W. destruct W as (Wl & Wr & E).
    destruct (IHl Wl) as [W' D']. split; [exact W' |].
    rewrite (dtype_BinaryOp a Add _ _ E). congruence.
  - (* Broadcast + Ramp *)
    intros a l r ab b m ar base stride k a1 a2 res _ IHl _ IHr _ IHres W.
    apply wt_BinaryOp in W. destruct W as (Wl & Wr & E).
    destruct (IHl Wl) as [Wb Db]. destruct (IHr Wr) as [Wr' Dr].
    simpl in Wb, Wr'. apply andb_prop in Wb. destruct Wb as [Wb Sb].
    apply andb_prop in Wr'. destruct Wr' as [Wr' Sbase].
    apply andb_prop in Wr'. destruct Wr' as [Wbase Wstride].
    assert (Ebb : dtypeE b = dtypeE base).
    { apply scalar_iff in Sb, Sbase. apply Dtype_ext; [| congruence].
      simpl in Db, Dr. rewrite <- Db, <- Dr in E. inversion E. auto. }
    destruct IHres as [Wres Dres].
    { simpl. rewrite Wb, Wbase, Wstride. simpl.
      destruct (Dtype_eq_dec (dtypeE b) (dtypeE base)); [| contradiction].
      simpl. unfold scalar_node. simpl. rewrite Ebb, BinaryOpDtype_idem.
      exact Sbase. }
    split; [exact Wres |].
    rewrite Dres, (dtype_BinaryOp a Add _ _ E), <- Dr. simpl.
    rewrite Ebb, BinaryOpDtype_idem. reflexivity.
  - (* Ramp + Broadcast *)
    intros a l r ab b m ar base stride k a1 a2 res _ IHl _ IHr _ IHres W.
    apply wt_BinaryOp in W. destruct W as (Wl & Wr & E).
    destruct (IHl Wl) as [Wr' Dr]. destruct (IHr Wr) as [Wb Db].
    simpl in Wb, Wr'. apply andb_prop in Wb. destruct Wb as [Wb Sb].
    apply andb_prop in Wr'. destruct Wr' as [Wr' Sbase].
    apply andb_prop in Wr'. destruct Wr' as [Wbase Wstride].
    assert (Ebb : dtypeE b = dtypeE base).
    { apply scalar_iff in Sb, Sbase. apply Dtype_ext; [| congruence].
      simpl in Db, Dr. rewrite <- Db, <- Dr in E. inversion E. auto. }
    destruct IHres as [Wres Dres].
    { simpl. rewrite Wb, Wbase, Wstride. simpl.
      destruct (Dtype_eq_dec (dtypeE b) (dtypeE base)); [| contradiction].
      simpl. unfold scalar_node. simpl. rewrite Ebb, BinaryOpDtype_idem.
      exact Sbase. }
    split; [exact Wres |].
    rewrite Dres, (dtype_BinaryOp a Add _ _ E), <- E, <- Dr. simpl.
    rewrite Ebb, BinaryOpDtype_idem. reflexivity.
  - intros a l r l' r' _ IHl _ IHr _ W.
    apply wt_BinaryOp in W. destruct W as (Wl & Wr & E).
    destruct (IHl Wl) as [W' D']. split; [exact W' |].
    rewrite (dtype_BinaryOp a Sub _ _ E). congruence.
  - intros a l r l' r' _ IHl _ IHr _ W.
    apply wt_BinaryOp in W. destruct W as (Wl & Wr & E).
    destruct (IHr Wr) as [W' D']. split; [exact W' |].
    rewrite (dtype_BinaryOp a Mul _ _ E). exact D'.
  - intros a l r l' r' _ IHl _ IHr _ W.
    apply wt_BinaryOp in W. destruct W as (Wl & Wr & E).
    destruct (IHl Wl) as [W' D']. split; [exact W' |].
    rewrite (dtype_BinaryOp a Mul _ _ E). congruence.
  - intros a l r l' r' _ IHl _ IHr _ W.
    apply wt_BinaryOp in W. destruct W as (Wl & Wr & E).
    destruct (IHl Wl) as [W' D']. split; [exact W' |].
    rewrite (dtype_BinaryOp a Div _ _ E). congruence.
  - (* rebuilt *)
    intros a a' op l r l' r' _ IHl _ IHr _ _ W.
    apply wt_BinaryOp in W. destruct W as (Wl & Wr & E).
    destruct (IHl Wl) as [Wl' Dl]. destruct (IHr Wr) as [Wr' Dr].
    split; [apply wt_BinaryOp_intro; congruence |].
    simpl. congruence.
  - (* evaluated *)
    intros a a' op l r l' r' res Fl IHl Fr IHr _ C Ev W.
    apply wt_BinaryOp in W. destruct W as (Wl & Wr & E).
    destruct (IHl Wl) as [Wl' Dl]. destruct (IHr Wr) as [Wr' Dr].
    apply andb_prop in C. destruct C as [Cl Cr].
    assert (En : dtypeE (BinaryOp a' op l' r') = dtypeE (BinaryOp a op l r))
      by (simpl; congruence).
    destruct (evaluated_typed Ev) as [Wres Dres]; [| split; congruence].
    apply scalar_iff. rewrite En, (dtype_BinaryOp a op _ _ E), <- Dr.
    apply scalar_iff, is_imm_scalar, folded_constant_imm; auto.
    exact (folds_folded Fr).
  - (* Cast, evaluated *)
    intros a dt src res C Ev W. apply evaluated_typed; [exact Ev |].
    simpl in W. apply andb_prop in W. destruct W as [W L].
    apply Nat.eqb_eq in L. apply scalar_iff. simpl. rewrite L.
    apply scalar_iff, constant_scalar; assumption.
  - auto.
  - intros a a' v v' n _ IH W. simpl in W.
    apply andb_prop in W. destruct W as [W S].
    destruct (IH W) as [W' D']. simpl. unfold scalar_node in *.
    rewrite W', D', S. auto.
  - intros a a' b st b' st' n _ IHb _ IHst W. simpl in W.
    apply andb_prop in W. destruct W as [W S].
    apply andb_prop in W. destruct W as [Wb Wst].
    destruct (IHb Wb) as [Wb' Db]. destruct (IHst Wst) as [Wst' Dst].
    simpl. unfold scalar_node in *. rewrite Wb', Wst', Db, S. auto.
  - (* Intrinsics, kept *)
    intros a a' op ps ps' _ IH _ W. simpl in W.
    apply andb_prop in W. destruct W as [W I].
    destruct (IH W) as [W' D']. simpl.
    rewrite W', (forallb_scalar_dtype _ _ D'). unfold scalar_node in *.
    simpl in *. rewrite D'. auto.
  - (* Intrinsics, evaluated *)
    intros a a' op ps ps' res Fps IH C Ev W. simpl in W.
    apply andb_prop in W. destruct W as [W I].
    destruct (IH W) as [W' D'].
    apply andb_prop in C. destruct C as [C _].
    assert (En : dtypeE (Intrinsics a' op ps') = dtypeE (Intrinsics a op ps))
      by (simpl; congruence).
    destruct (evaluated_typed Ev) as [Wres Dres]; [| split; congruence].
    apply scalar_iff. rewrite En. apply scalar_iff.
    rewrite <- (forallb_scalar_dtype _ _ D') in I.
    assert (A : forallb scalar ps' = true).
    { pose proof (proj2 folds_folded_both _ _ Fps) as Ff.
      clear - C Ff. induction ps' as [| p ps' IH]; [reflexivity |].
      simpl in *. apply andb_prop in C, Ff. destruct C, Ff.
      rewrite is_imm_scalar, IH; auto. apply folded_constant_imm; auto. }
    rewrite A in I. exact I.
  - intros a a' dt h i m i' m' _ IHi _ IHm W. simpl in W.
    apply andb_prop in W. destruct W as [Wi Wm].
    destruct (IHi Wi) as [Wi' _]. destruct (IHm Wm) as [Wm' _].
    simpl. rewrite Wi', Wm'. auto.
  - auto.
  - intros p p' ps ps' _ IHp _ IHps W. simpl in W.
    apply andb_prop in W. destruct W as [Wp Wps].
    destruct (IHp Wp) as [Wp' Dp]. destruct (IHps Wps) as [Wps' Dps].
    simpl. rewrite Wp', Wps', Dp, Dps. auto.
Qed.

Lemma fold_typed (n : nat) (e r : Expr) (s s' : State) :
  wt e = true -> foldE n e s = (Ok r, s') ->
  wt r = true /\ dtypeE r = dtypeE e.
Proof.
  intros W E. apply (proj1 folds_typed_both e r); [| exact W].
  eapply fold_sound; eassumption.
Qed.

(** C8.  On a well-formed node the pass returns a node of the same dtype,
    element type and lane count alike, whichever rule produced it. *)
Theorem fold_preserves_dtype (n : nat) (e r : Expr) (s s' : State) :
  wt e = true ->
  foldE n e s = (Ok r, s') ->
  scalar_type (dtypeE r) = scalar_type (dtypeE e) /\
  lanes (dtypeE r) = lanes (dtypeE e).
Proof.
  intros W E. destruct (fold_typed n e s W E) as [_ D].
  rewrite D. split; reflexivity.
Qed.

(** ** Identity eliminations *)

Lemma fold_leaf (k : nat) (c : Expr) (s : State) :
  is_imm c = true -> foldE (S k) c s = (Ok c, visited c s).
Proof. destruct c; simpl; try discriminate; reflexivity. Qed.

Lemma same_outcome_refl (o : Res Expr * State) : same_outcome o o.
Proof.
  unfold same_outcome. destruct o as [[r | x |] s]; simpl; auto.
  repeat split; reflexivity.
Qed.

Lemma same_outcome_visited (o : Res Expr * State) (r' c : Expr) :
  match fst o with Ok r => struct_eq r' r | _ => True end ->
  same_outcome
    (match o with
     | (Ok _, s1) => (Ok r', visited c s1)
     | (Throw x, s1) => (Throw x, s1)
     | (OutOfFuel, s1) => (OutOfFuel, s1)
     end) o.
Proof.
  unfold same_outcome. destruct o as [[r | x |] s]; simpl; auto.
Qed.

Lemma is_IntImm_struct_eq (k : Z) (a : addr) (r : Expr) :
  is_IntImm k r = true -> struct_eq (IntImm a k) r.
Proof.
  destruct r; simpl; try discriminate. intros E.
  apply Z.eqb_eq in E. subst. reflexivity.
Qed.

Lemma is_FloatImm_one_struct_eq (a : addr) (r : Expr) :
  is_FloatImm_one r = true -> struct_eq (FloatImm a float_one) r.
Proof.
  destruct r; simpl; try discriminate. unfold float_is_one. intros E.
  apply Z.eqb_eq in E. subst. reflexivity.
Qed.

Lemma float_typed_not_IntImm (k : Z) (r : Expr) :
  dtypeE r = kFloat -> is_IntImm k r = false.
Proof. destruct r; simpl; try reflexivity. discriminate. Qed.

(** C2.  With [x] any node and [k + 1] the budget its folding is given:
    folding [0 + x], [x + 0], [1 * x], [x * 1], [x - 0] and [x / 1], the
    integer immediate being the operand named, ends as folding [x] does,
    with a structurally equal node and no further call of the evaluator;
    so do [1.0f * x] and [x * 1.0f] when the product is a well-formed
    node. *)
Theorem identity_eliminations (x : Expr) (k : nat) (s : State)
    (a a0 : addr) :
  let on_left c op :=
    same_outcome
      (foldE (S (S k)) (BinaryOp a op c x) s)
      (foldE (S k) x (visited c (visited (BinaryOp a op c x) s))) in
  let on_right c op :=
    same_outcome
      (foldE (S (S k)) (BinaryOp a op x c) s)
      (foldE (S k) x (visited (BinaryOp a op x c) s)) in
  on_left (IntImm a0 0) Add /\ on_right (IntImm a0 0) Add /\
  on_left (IntImm a0 1) Mul /\ on_right (IntImm a0 1) Mul /\
  on_right (IntImm a0 0) Sub /\ on_right (IntImm a0 1) Div /\
  (wt (BinaryOp a Mul (FloatImm a0 float_one) x) = true ->
   on_left (FloatImm a0 float_one) Mul) /\
  (wt (BinaryOp a Mul x (FloatImm a0 float_one)) = true ->
   on_right (FloatImm a0 float_one) Mul).
Proof.
  cbv zeta beta.
  assert (Hleaf : forall c s, is_imm c = true ->
                              foldE (S k) c s = (Ok c, visited c s))
    by (intros; apply fold_leaf; assumption).
  assert (Hty : forall r s1 s2, wt x = true -> dtypeE x = kFloat ->
                  foldE (S k) x s1 = (Ok r, s2) -> is_IntImm 1 r = false).
  { intros r s1 s2 W D E. apply float_typed_not_IntImm.
    destruct (fold_typed _ _ _ W E) as [_ D']. congruence. }
  rewrite !(fold_S (S k)).
  generalize dependent (foldE (S k)). intros rec Hleaf Hty.
  cbn [dispatch]. unfold mutate_Add, mutate_Sub, mutate_Mul, mutate_Div.
  split; [| split; [| split; [| split; [| split; [| split; [| split]]]]]].
  - rewrite (bind_step _ _ _ (Hleaf (IntImm a0 0) _ eq_refl)).
    unfold bind. simpl.
    destruct (rec x _) as [[r | e |] s1]; apply same_outcome_refl.
  - unfold bind at 1.
    destruct (rec x _) as [[r | e |] s1] eqn:E; try apply same_outcome_refl.
    rewrite (bind_step _ _ _ (Hleaf (IntImm a0 0) _ eq_refl)).
    destruct (is_IntImm 0 r) eqn:Z0; simpl.
    + unfold same_outcome; simpl. repeat split.
      apply is_IntImm_struct_eq. exact Z0.
    + unfold same_outcome; simpl. repeat split; reflexivity.
  - rewrite (bind_step _ _ _ (Hleaf (IntImm a0 1) _ eq_refl)).
    unfold bind. simpl.
    destruct (rec x _) as [[r | e |] s1]; apply same_outcome_refl.
  - unfold bind at 1.
    destruct (rec x _) as [[r | e |] s1] eqn:E; try apply same_outcome_refl.
    rewrite (bind_step _ _ _ (Hleaf (IntImm a0 1) _ eq_refl)).
    destruct (is_IntImm 1 r) eqn:Z1; simpl.
    + unfold same_outcome; simpl. repeat split.
      apply is_IntImm_struct_eq. exact Z1.
    + unfold same_outcome; simpl. repeat split; reflexivity.
  - unfold bind at 1.
    destruct (rec x _) as [[r | e |] s1] eqn:E; try apply same_outcome_refl.
    rewrite (bind_step _ _ _ (Hleaf (IntImm a0 0) _ eq_refl)). simpl.
    unfold same_outcome; simpl. repeat split; reflexivity.
  - unfold bind at 1.
    destruct (rec x _) as [[r | e |] s1] eqn:E; try apply same_outcome_refl.
    rewrite (bind_step _ _ _ (Hleaf (IntImm a0 1) _ eq_refl)). simpl.
    unfold same_outcome; simpl. repeat split; reflexivity.
  - intros W. apply wt_BinaryOp in W. destruct W as (_ & Wx & D).
    rewrite (bind_step _ _ _ (Hleaf (FloatImm a0 float_one) _ eq_refl)).
    unfold bind.
    destruct (rec x _) as [[r | e |] s1] eqn:E; try apply same_outcome_refl.
    simpl. rewrite (Hty _ _ _ Wx (eq_sym D) E). simpl.
    apply same_outcome_refl.
  - intros W. apply wt_BinaryOp in W. destruct W as (Wx & _ & D).
    unfold bind at 1.
    destruct (rec x _) as [[r | e |] s1] eqn:E; try apply same_outcome_refl.
    rewrite (bind_step _ _ _ (Hleaf (FloatImm a0 float_one) _ eq_refl)).
    rewrite (Hty _ _ _ Wx D E). simpl.
    destruct (is_FloatImm_one r) eqn:F1; simpl.
    + unfold same_outcome; simpl. repeat split.
      apply is_FloatImm_one_struct_eq. exact F1.
    + unfold same_outcome; simpl. repeat split; reflexivity.
Qed.

End Typed.

(** ** Folding a folded node *)

Lemma returns_ret {A} (a : A) (P : A -> Prop) : P a -> returns (ret a) P.
Proof. intros H s; exists a, s; auto. Qed.

Lemma returns_bind {A B} (m : M A) (k : A -> M B) (P : A -> Prop)
    (Q : B -> Prop) :
  returns m P -> (forall a, P a -> returns (k a) Q) -> returns (bind m k) Q.
Proof.
  intros Hm Hk s. destruct (Hm s) as (a & s1 & E & Ha).
  rewrite (bind_step _ _ _ E). exact (Hk a Ha s1).
Qed.

Lemma returns_alloc (mk : addr -> Expr) (P : Expr -> Prop) :
  (forall a, P (mk a)) -> returns (alloc mk) P.
Proof. intros H s; eexists _, _; split; [reflexivity | apply H]. Qed.

Lemma returns_visit_bind {B} (e : Expr) (k : unit -> M B) (Q : B -> Prop) :
  returns (k tt) Q -> returns (bind (log (EvVisit e)) k) Q.
Proof. intros H s. unfold bind, log. apply H. Qed.

Lemma returns_newBinaryOpOfType (op : BinOp) (l r : Expr) (o : bool)
    (P : Expr -> Prop) :
  BinOp_of_kind (expr_type op) o = Some op ->
  (forall a, P (BinaryOp a op l r)) ->
  returns (newBinaryOpOfType (expr_type op) l r o) P.
Proof.
  intros Ho HP.
  destruct op; simpl in *; inversion Ho; subst; apply returns_alloc, HP.
Qed.

Lemma is_IntImm_strip (k : Z) (e : Expr) :
  is_IntImm k (strip e) = is_IntImm k e.
Proof. destruct e; reflexivity. Qed.

Lemma is_FloatImm_one_strip (e : Expr) :
  is_FloatImm_one (strip e) = is_FloatImm_one e.
Proof. destruct e; reflexivity. Qed.

Lemma is_Broadcast_IntImm_strip (k : Z) (e : Expr) :
  is_Broadcast_IntImm k (strip e) = is_Broadcast_IntImm k e.
Proof. destruct e; simpl; try reflexivity. apply is_IntImm_strip. Qed.

Lemma add_block_free_strip (x y : Expr) :
  add_block_free (strip x) (strip y) = add_block_free x y.
Proof.
  destruct x; simpl; try reflexivity. rewrite is_IntImm_strip.
  destruct y; reflexivity.
Qed.

Lemma no_identity_strip (op : BinOp) (l r : Expr) :
  no_identity op (strip l) (strip r) = no_identity op l r.
Proof.
  destruct op; simpl;
    rewrite ?is_IntImm_strip, ?is_FloatImm_one_strip,
      ?is_Broadcast_IntImm_strip, ?add_block_free_strip; reflexivity.
Qed.

Lemma isConstant_strip (e : Expr) : isConstant (strip e) = isConstant e.
Proof.
  induction e as [a v | a v | a st v | v | a op l IHl r IHr | a dt s0 IHs
                  | a v n IHv | a b st n IHb IHst | a op ps IHps
                  | a dt h i m IHi IHm] using Expr_nested_ind;
    simpl; try reflexivity; try congruence.
  f_equal. induction IHps as [| p ps Hp _ IH]; simpl; congruence.
Qed.

Lemma struct_eq_isConstant (x y : Expr) :
  struct_eq x y -> isConstant x = isConstant y.
Proof.
  unfold struct_eq. intros E.
  rewrite <- (isConstant_strip x), <- (isConstant_strip y), E. reflexivity.
Qed.

Lemma struct_eq_no_identity (op : BinOp) (l r l' r' : Expr) :
  struct_eq l' l -> struct_eq r' r ->
  no_identity op l' r' = no_identity op l r.
Proof.
  unfold struct_eq. intros El Er.
  rewrite <- (no_identity_strip op l' r'), <- (no_identity_strip op l r),
    El, Er. reflexivity.
Qed.

Lemma add_block_free_None (rec : Expr -> M Expr) (x y : Expr) :
  add_block_free x y = true -> add_broadcast_block rec x y = None.
Proof.
  destruct x; simpl; try reflexivity.
  destruct (is_IntImm 0 x); [discriminate |].
  destruct y; simpl; try reflexivity. discriminate.
Qed.

Lemma forallb_isConstant_strip (ps ps' : list Expr) :
  map strip ps' = map strip ps ->
  forallb isConstant ps' = forallb isConstant ps.
Proof.
  revert ps'. induction ps as [| p ps IH]; intros [| p' ps'] H;
    simpl in *; try discriminate; [reflexivity |].
  inversion H. rewrite (@struct_eq_isConstant p' p), (IH ps'); auto.
Qed.

Ltac split_andb :=
  repeat match goal with
         | H : _ && _ = true |- _ =>
             apply andb_prop in H; destruct H
         | H : negb _ = true |- _ => apply negb_true_iff in H
         end.

Section Dispatch_same.

Variable rec : Expr -> M Expr.
Variable n : nat.
Hypothesis rec_same :
  forall e, size e <= n -> folded e = true ->
            returns (rec e) (fun r => struct_eq r e).

Lemma rebuild_same (a : addr) (op : BinOp) (l r l2 r2 : Expr) (o : bool) :
  struct_eq l2 l -> struct_eq r2 r ->
  isConstant l && isConstant r = false ->
  BinOp_of_kind (expr_type op) o = Some op ->
  returns (rebuild_and_evaluate BinaryOpDtype IntrinsicsDtype interp
             (BinaryOp a op l r) op l r l2 r2 o)
          (fun x => struct_eq x (BinaryOp a op l r)).
Proof.
  intros El Er C Ho. unfold rebuild_and_evaluate.
  apply returns_bind with (P := fun x => struct_eq x (BinaryOp a op l r)).
  - destruct (negb (same_node l2 l) || negb (same_node r2 r)).
    + apply returns_newBinaryOpOfType; [exact Ho |].
      intros a'. unfold struct_eq in *. simpl. congruence.
    + apply returns_ret. reflexivity.
  - intros node Hnode.
    rewrite <- negb_andb, (struct_eq_isConstant El),
      (struct_eq_isConstant Er), C. simpl.
    apply returns_ret. exact Hnode.
Qed.

Lemma mutate_params_same (ps : list Expr) :
  list_sum (map size ps) <= n -> forallb folded ps = true ->
  returns (mutate_params rec ps)
          (fun acc => let '(nps, ch, ac) := acc in
                      map strip nps = map strip ps /\
                      ac = forallb isConstant nps /\
                      (ch = false -> nps = ps)).
Proof.
  induction ps as [| p ps IH]; simpl; intros Hn Hf.
  - apply returns_ret. auto.
  - apply andb_prop in Hf. destruct Hf as [Hp Hps].
    eapply returns_bind; [apply rec_same; [lia | exact Hp] |].
    intros p' Ep. eapply returns_bind; [apply IH; [lia | exact Hps] |].
    intros [[nps ch] ac] (E1 & E2 & E3). apply returns_ret.
    repeat split.
    + simpl. rewrite E1, Ep. reflexivity.
    + simpl. rewrite E2. reflexivity.
    + intros E. apply orb_false_elim in E. destruct E as [Ea Eb].
      apply negb_false_iff, same_node_true in Ea.
      rewrite (E3 Eb), Ea. reflexivity.
Qed.

Ltac same_children l2 r2 El Er :=
  eapply returns_bind; [apply rec_same; [lia | assumption] |];
  intros l2 El;
  eapply returns_bind; [apply rec_same; [lia | assumption] |];
  intros r2 Er.

Lemma dispatch_same (e : Expr) :
  size e <= S n -> folded e = true ->
  returns (dispatch BinaryOpDtype IntrinsicsDtype interp rec e)
          (fun r => struct_eq r e).
Proof.
  destruct e as [a v | a v | a st v | v | a op l r | a dt src | a v k
                 | a b st k | a op ps | a dt h i m]; simpl;
    intros Hn Hf; try (apply returns_ret; reflexivity).
  - apply andb_prop in Hf. destruct Hf as [Hf Hc].
    apply andb_prop in Hf. destruct Hf as [Hf Hid].
    apply andb_prop in Hf. destruct Hf as [Fl Fr].
    apply negb_true_iff in Hc.
    destruct op;
      try (unfold mutateBinaryOp; same_children l2 r2 El Er;
           apply rebuild_same; auto).
    + unfold mutate_Add. same_children l2 r2 El Er.
      rewrite <- (struct_eq_no_identity Add El Er) in Hid.
      simpl in Hid. split_andb.
      repeat match goal with H : _ = false |- _ => rewrite H end.
      rewrite !add_block_free_None by assumption.
      apply rebuild_same; auto.
    + unfold mutate_Sub. same_children l2 r2 El Er.
      rewrite <- (struct_eq_no_identity Sub El Er) in Hid.
      simpl in Hid. split_andb.
      repeat match goal with H : _ = false |- _ => rewrite H end.
      apply rebuild_same; auto.
    + unfold mutate_Mul. same_children l2 r2 El Er.
      rewrite <- (struct_eq_no_identity Mul El Er) in Hid.
      simpl in Hid. split_andb.
      repeat match goal with H : _ = false |- _ => rewrite H end.
      apply rebuild_same; auto.
    + unfold mutate_Div. same_children l2 r2 El Er.
      rewrite <- (struct_eq_no_identity Div El Er) in Hid.
      simpl in Hid. split_andb.
      repeat match goal with H : _ = false |- _ => rewrite H end.
      apply rebuild_same; auto.
  - unfold mutate_Cast. apply negb_true_iff in Hf. rewrite Hf.
    apply returns_ret. reflexivity.
  - unfold mutate_Broadcast.
    eapply returns_bind; [apply rec_same; [lia | assumption] |].
    intros v2 Ev. destruct (same_node v2 v).
    + apply returns_ret. reflexivity.
    + apply returns_alloc. intros a'. unfold struct_eq in *. simpl.
      congruence.
  - apply andb_prop in Hf. destruct Hf as [Fb Fst].
    unfold mutate_Ramp. same_children b2 st2 Eb Est.
    destruct (same_node b2 b && same_node st2 st).
    + apply returns_ret. reflexivity.
    + apply returns_alloc. intros a'. unfold struct_eq in *. simpl.
      congruence.
  - apply andb_prop in Hf. destruct Hf as [Fps Hc].
    apply negb_true_iff in Hc.
    unfold mutate_Intrinsics.
    eapply returns_bind; [apply mutate_params_same; [lia | exact Fps] |].
    intros [[nps ch] ac] (E1 & E2 & E3).
    apply returns_bind
      with (P := fun x => struct_eq x (Intrinsics a op ps)).
    + destruct ch.
      * apply returns_alloc. intros a'. unfold struct_eq. simpl.
        congruence.
      * apply returns_ret. reflexivity.
    + intros node Hnode.
      rewrite <- negb_andb, E2, (forallb_isConstant_strip _ _ E1), Hc.
      apply returns_ret. exact Hnode.
  - apply andb_prop in Hf. destruct Hf as [Fi Fm].
    unfold mutate_Load. same_children i2 m2 Ei Em.
    destruct (same_node i2 i && same_node m2 m).
    + apply returns_ret. reflexivity.
    + apply returns_alloc. intros a'. unfold struct_eq in *. simpl.
      congruence.
Qed.

End Dispatch_same.

Lemma fold_folded_same (n : nat) :
  forall e, size e <= n -> folded e = true ->
            returns (foldE n e) (fun r => struct_eq r e).
Proof.
  induction n as [| n IH]; intros e Hn Hf.
  - destruct e; simpl in Hn; lia.
  - simpl. apply returns_visit_bind.
    apply dispatch_same with (n := n); assumption.
Qed.

(** C7.  Folding is idempotent: when the pass returns [r] for [e], then
    folding [r], with a recursion budget of its size or more and from any
    state, returns a node structurally equal to [r]. *)
Theorem fold_idempotent (n : nat) (e r : Expr) (s s1 : State) :
  foldE n e s = (Ok r, s1) ->
  forall m s2, size r <= m ->
    exists r2 s3, foldE m r s2 = (Ok r2, s3) /\ struct_eq r2 r.
Proof.
  intros E m s2 Hm. apply fold_folded_same; [exact Hm |].
  eapply folds_folded, fold_sound. exact E.
Qed.

(** ** Constant expressions collapse to the immediate of their value *)

Section Collapse.

Hypothesis laws : evaluator_laws BinaryOpDtype IntrinsicsDtype interp.

Local Abbreviation wt := (well_typed BinaryOpDtype IntrinsicsDtype).
Local Abbreviation scalar := (scalar_node BinaryOpDtype IntrinsicsDtype).
Local Abbreviation supp := (supported BinaryOpDtype IntrinsicsDtype).
Local Abbreviation evaluableE := (evaluable BinaryOpDtype IntrinsicsDtype).
Local Abbreviation collapsedE :=
  (collapsed BinaryOpDtype IntrinsicsDtype interp).
Local Abbreviation nan_freeE :=
  (nan_free BinaryOpDtype IntrinsicsDtype interp).

Lemma interp_getImmediateByType (st : ScalarType) (v : Z) (a : addr) :
  interp (getImmediateByType st v a) = v.
Proof.
  destruct st; simpl;
    first [apply (interp_IntImm laws) | apply (interp_FloatImm laws)
          | apply (interp_Imm laws)].
Qed.

Lemma dtype_getImmediateByType (st : ScalarType) (v : Z) (a : addr) :
  dtypeE (getImmediateByType st v a) = mkDtype st 1.
Proof. destruct st; reflexivity. Qed.

Lemma collapsed_facts (e r : Expr) :
  collapsedE e r -> scalar e = true ->
  is_imm r = true /\ dtypeE r = dtypeE e /\ interp r = interp e.
Proof.
  intros [a ->] S. apply scalar_iff in S. repeat split.
  - apply getImmediateByType_imm.
  - rewrite dtype_getImmediateByType. apply Dtype_ext; simpl; auto.
  - apply interp_getImmediateByType.
Qed.

Lemma collapsed_transfer (e e' r : Expr) :
  collapsedE e' r -> dtypeE e' = dtypeE e -> interp e' = interp e ->
  collapsedE e r.
Proof. intros [a ->] D V. exists a. rewrite D, V. reflexivity. Qed.

Lemma returns_evaluateOp (v : Expr) :
  supp v = true -> returns (evalOp v) (collapsedE v).
Proof.
  intros S s. unfold evaluateOp, bind, log, collapsed. simpl.
  unfold supported in S.
  destruct (scalar_type (dtypeE v)); try discriminate;
    eexists _, _; (split; [reflexivity | eexists; reflexivity]).
Qed.

Lemma is_imm_isConstant (e : Expr) : is_imm e = true -> isConstant e = true.
Proof. destruct e; simpl; congruence. Qed.

Lemma is_imm_add_broadcast_block (rec : Expr -> M Expr) (x y : Expr) :
  is_imm x = true -> add_broadcast_block rec x y = None.
Proof. destruct x; simpl; try discriminate; reflexivity. Qed.

Lemma is_imm_not_Broadcast (k : Z) (x : Expr) :
  is_imm x = true -> is_Broadcast_IntImm k x = false.
Proof. destruct x; simpl; try discriminate; reflexivity. Qed.

Lemma is_IntImm_inv (k : Z) (x : Expr) :
  is_IntImm k x = true -> exists a, x = IntImm a k.
Proof.
  destruct x; simpl; try discriminate. intros E.
  apply Z.eqb_eq in E. subst. eauto.
Qed.

Lemma is_FloatImm_one_inv (x : Expr) :
  is_FloatImm_one x = true -> exists a, x = FloatImm a float_one.
Proof.
  destruct x; simpl; try discriminate. unfold float_is_one. intros E.
  apply Z.eqb_eq in E. subst. eauto.
Qed.

Lemma evaluable_supported (e : Expr) : evaluableE e = true -> supp e = true.
Proof.
  destruct e; simpl; intros H; try reflexivity; apply andb_prop in H; tauto.
Qed.

Lemma nan_free_not_nan (e : Expr) :
  nan_freeE e = true -> dtypeE e = kFloat -> is_nan (interp e) = false.
Proof.
  intros H D.
  assert (N : not_nan BinaryOpDtype IntrinsicsDtype interp e = true)
    by (destruct e; cbn [nan_free] in H; apply andb_prop in H; tauto).
  unfold not_nan in N. rewrite D in N.
  change (negb (is_nan (interp e)) = true) in N.
  apply negb_true_iff. exact N.
Qed.

Section Dispatch_collapse.

Variable rec : Expr -> M Expr.
Variable n : nat.
Hypothesis rec_collapse :
  forall e, size e <= n -> isConstant e = true -> wt e = true ->
            evaluableE e = true -> nan_freeE e = true ->
            returns (rec e) (collapsedE e).

Lemma rebuild_collapse (a : addr) (op : BinOp) (l r l2 r2 : Expr)
    (o : bool) :
  is_imm l2 = true -> dtypeE l2 = dtypeE l -> interp l2 = interp l ->
  is_imm r2 = true -> dtypeE r2 = dtypeE r -> interp r2 = interp r ->
  supp (BinaryOp a op l r) = true ->
  BinOp_of_kind (expr_type op) o = Some op ->
  returns (rebuild_and_evaluate BinaryOpDtype IntrinsicsDtype interp
             (BinaryOp a op l r) op l r l2 r2 o)
          (collapsedE (BinaryOp a op l r)).
Proof.
  intros Il Dl Vl Ir Dr Vr S Ho. unfold rebuild_and_evaluate.
  apply returns_bind
    with (P := fun x => exists a', x = BinaryOp a' op l2 r2).
  - destruct (negb (same_node l2 l) || negb (same_node r2 r)) eqn:E.
    + apply returns_newBinaryOpOfType; [exact Ho | eauto].
    + apply returns_ret. apply orb_false_elim in E. destruct E as [E1 E2].
      apply negb_false_iff, same_node_true in E1, E2. subst. eauto.
  - intros node [a' ->].
    rewrite (is_imm_isConstant _ Il), (is_imm_isConstant _ Ir). simpl.
    assert (D : dtypeE (BinaryOp a' op l2 r2) = dtypeE (BinaryOp a op l r))
      by (simpl; congruence).
    intros s. destruct (@returns_evaluateOp (BinaryOp a' op l2 r2)) with (s := s)
      as (x & s' & E & Hx).
    { unfold supported in *. rewrite D. exact S. }
    exists x, s'. split; [exact E |].
    eapply collapsed_transfer; [exact Hx | exact D |].
    apply (interp_BinaryOp laws); assumption.
Qed.

Lemma mutate_params_collapse (ps : list Expr) :
  list_sum (map size ps) <= n -> forallb isConstant ps = true ->
  forallb wt ps = true -> forallb evaluableE ps = true ->
  forallb nan_freeE ps = true ->
  returns (mutate_params rec ps)
          (fun acc => let '(nps, ch, ac) := acc in
                      map dtypeE nps = map dtypeE ps /\
                      map interp nps = map interp ps /\
                      ac = true /\ (ch = false -> nps = ps)).
Proof.
  induction ps as [| p ps IH]; simpl; intros Hn Hc Hw He Hf.
  - apply returns_ret. auto.
  - apply andb_prop in Hc, Hw, He, Hf.
    destruct Hc as [Cp Cps], Hw as [Wp Wps], He as [Ep Eps],
      Hf as [Fp Fps].
    eapply returns_bind; [apply rec_collapse; [lia | assumption ..] |].
    intros p' Hp.
    destruct (collapsed_facts Hp) as (Ip & Dp & Vp).
    { apply (constant_scalar (BinaryOpDtype_same laws)); assumption. }
    eapply returns_bind; [apply IH; [lia | assumption ..] |].
    intros [[nps ch] ac] (E1 & E2 & E3 & E4). apply returns_ret.
    repeat split.
    + simpl. congruence.
    + simpl. congruence.
    + rewrite E3, (is_imm_isConstant _ Ip). reflexivity.
    + intros E. apply orb_false_elim in E. destruct E as [Ea Eb].
      apply negb_false_iff, same_node_true in Ea.
      rewrite (E4 Eb), Ea. reflexivity.
Qed.

Ltac collapse_child x Hx Ix Dx Vx :=
  eapply returns_bind; [apply rec_collapse; [lia | assumption ..] |];
  intros x Hx;
  destruct (collapsed_facts Hx) as (Ix & Dx & Vx);
  [apply (constant_scalar (BinaryOpDtype_same laws)); assumption |].

(** The node is replaced by its folded right (left) operand, whose value
    is the value of the node. *)
Lemma collapsed_right (a : addr) (op : BinOp) (l r r2 : Expr) :
  collapsedE r r2 -> dtypeE l = dtypeE r ->
  interp (BinaryOp a op l r) = interp r ->
  collapsedE (BinaryOp a op l r) r2.
Proof.
  intros H D V. eapply collapsed_transfer; [exact H | | auto].
  symmetry. apply (dtype_BinaryOp (BinaryOpDtype_same laws)). exact D.
Qed.

Lemma collapsed_left (a : addr) (op : BinOp) (l r l2 : Expr) :
  collapsedE l l2 -> dtypeE l = dtypeE r ->
  interp (BinaryOp a op l r) = interp l ->
  collapsedE (BinaryOp a op l r) l2.
Proof.
  intros H D V. eapply collapsed_transfer; [exact H | | auto].
  rewrite (dtype_BinaryOp (BinaryOpDtype_same laws) a op _ _ D). exact D.
Qed.

Lemma dispatch_collapse (e : Expr) :
  size e <= S n -> isConstant e = true -> wt e = true ->
  evaluableE e = true -> nan_freeE e = true ->
  returns (dispatch BinaryOpDtype IntrinsicsDtype interp rec e)
          (collapsedE e).
Proof.
  destruct e as [a v | a v | a st v | v | a op l r | a dt src | a v k
                 | a b st k | a op ps | a dt h i m];
    intros Hn Hc Hw He Hf; try discriminate Hc.
  - apply returns_ret. exists a. simpl.
    rewrite (interp_IntImm laws). reflexivity.
  - apply returns_ret. exists a. simpl.
    rewrite (interp_FloatImm laws). reflexivity.
  - apply returns_ret. exists a. simpl. rewrite (interp_Imm laws).
    destruct st; try discriminate Hw; reflexivity.
  - pose proof (evaluable_supported _ He) as S.
    simpl in Hn, Hc, He. apply wt_BinaryOp in Hw.
    destruct Hw as (Wl & Wr & D).
    apply andb_prop in Hc. destruct Hc as [Cl Cr].
    apply andb_prop in He. destruct He as [_ He].
    apply andb_prop in He. destruct He as [El Er].
    cbn [nan_free] in Hf. apply andb_prop in Hf. destruct Hf as [_ Hf].
    apply andb_prop in Hf. destruct Hf as [Fl Fr].
    assert (Hop : forall o, o = option_of op ->
              returns (mutateBinaryOp BinaryOpDtype IntrinsicsDtype interp
                         rec (BinaryOp a op l r) op l r o)
                      (collapsedE (BinaryOp a op l r))).
    { intros o ->. unfold mutateBinaryOp.
      collapse_child l2 Hl Il Dl Vl. collapse_child r2 Hr Ir Dr Vr.
      apply rebuild_collapse; auto. apply BinOp_of_kind_option_of. }
    destruct op; simpl; try (apply Hop; reflexivity); clear Hop.
    + (* Add *)
      unfold mutate_Add.
      collapse_child l2 Hl Il Dl Vl. collapse_child r2 Hr Ir Dr Vr.
      destruct (is_IntImm 0 l2) eqn:Z1.
      { apply returns_ret. apply collapsed_right; [exact Hr | exact D |].
        destruct (is_IntImm_inv _ _ Z1) as [a1 ->].
        transitivity (interp (BinaryOp a Add (IntImm a1 0) r)).
        - symmetry. apply (interp_BinaryOp laws); auto.
        - apply (interp_Add_zero_l laws). simpl in Dl. congruence. }
      destruct (is_IntImm 0 r2) eqn:Z2.
      { apply returns_ret. apply collapsed_left; [exact Hl | exact D |].
        destruct (is_IntImm_inv _ _ Z2) as [a1 ->].
        transitivity (interp (BinaryOp a Add l (IntImm a1 0))).
        - symmetry. apply (interp_BinaryOp laws); auto.
        - apply (interp_Add_zero_r laws). simpl in Dr. congruence. }
      rewrite !is_imm_add_broadcast_block by assumption.
      apply rebuild_collapse; auto.
    + (* Sub *)
      unfold mutate_Sub.
      collapse_child l2 Hl Il Dl Vl. collapse_child r2 Hr Ir Dr Vr.
      destruct (is_IntImm 0 r2) eqn:Z2.
      { apply returns_ret. apply collapsed_left; [exact Hl | exact D |].
        destruct (is_IntImm_inv _ _ Z2) as [a1 ->].
        transitivity (interp (BinaryOp a Sub l (IntImm a1 0))).
        - symmetry. apply (interp_BinaryOp laws); auto.
        - apply (interp_Sub_zero_r laws). simpl in Dr. congruence. }
      apply rebuild_collapse; auto.
    + (* Mul *)
      unfold mutate_Mul.
      collapse_child l2 Hl Il Dl Vl. collapse_child r2 Hr Ir Dr Vr.
      destruct (is_IntImm 1 l2) eqn:Z1.
      { apply returns_ret. apply collapsed_right; [exact Hr | exact D |].
        destruct (is_IntImm_inv _ _ Z1) as [a1 ->].
        transitivity (interp (BinaryOp a Mul (IntImm a1 1) r)).
        - symmetry. apply (interp_BinaryOp laws); auto.
        - apply (interp_Mul_one_l laws). simpl in Dl. congruence. }
      destruct (is_IntImm 1 r2) eqn:Z2.
      { apply returns_ret. apply collapsed_left; [exact Hl | exact D |].
        destruct (is_IntImm_inv _ _ Z2) as [a1 ->].
        transitivity (interp (BinaryOp a Mul l (IntImm a1 1))).
        - symmetry. apply (interp_BinaryOp laws); auto.
        - apply (interp_Mul_one_r laws). simpl in Dr. congruence. }
      destruct (is_FloatImm_one l2) eqn:F1.
      { apply returns_ret. apply collapsed_right; [exact Hr | exact D |].
        destruct (is_FloatImm_one_inv _ F1) as [a1 ->].
        transitivity (interp (BinaryOp a Mul (FloatImm a1 float_one) r)).
        - symmetry. apply (interp_BinaryOp laws); auto.
        - simpl in Dl.
          apply (interp_Mul_fone_l laws); [congruence |].
          apply nan_free_not_nan; [exact Fr | congruence]. }
      destruct (is_FloatImm_one r2) eqn:F2.
      { apply returns_ret. apply collapsed_left; [exact Hl | exact D |].
        destruct (is_FloatImm_one_inv _ F2) as [a1 ->].
        transitivity (interp (BinaryOp a Mul l (FloatImm a1 float_one))).
        - symmetry. apply (interp_BinaryOp laws); auto.
        - simpl in Dr.
          apply (interp_Mul_fone_r laws); [congruence |].
          apply nan_free_not_nan; [exact Fl | congruence]. }
      rewrite !is_imm_not_Broadcast by assumption.
      apply rebuild_collapse; auto.
    + (* Div *)
      unfold mutate_Div.
      collapse_child l2 Hl Il Dl Vl. collapse_child r2 Hr Ir Dr Vr.
      destruct (is_IntImm 1 r2) eqn:Z2.
      { apply returns_ret. apply collapsed_left; [exact Hl | exact D |].
        destruct (is_IntImm_inv _ _ Z2) as [a1 ->].
        transitivity (interp (BinaryOp a Div l (IntImm a1 1))).
        - symmetry. apply (interp_BinaryOp laws); auto.
        - apply (interp_Div_one_r laws). simpl in Dr. congruence. }
      apply rebuild_collapse; auto.
  - (* Cast *)
    pose proof (evaluable_supported _ He) as S.
    simpl in Hc. simpl. unfold mutate_Cast. rewrite Hc.
    apply returns_evaluateOp. exact S.
  - (* Intrinsics *)
    pose proof (evaluable_supported _ He) as S.
    simpl in Hn, Hc, Hw, He.
    apply andb_prop in Hc. destruct Hc as [Hp Cps].
    apply andb_prop in Hw. destruct Hw as [Wps _].
    apply andb_prop in He. destruct He as [_ Eps].
    cbn [nan_free] in Hf. apply andb_prop in Hf. destruct Hf as [_ Fps].
    simpl. unfold mutate_Intrinsics.
    eapply returns_bind;
      [apply mutate_params_collapse; [lia | assumption ..] |].
    intros [[nps ch] ac] (E1 & E2 & E3 & E4).
    apply returns_bind
      with (P := fun x => exists a', x = Intrinsics a' op nps).
    + destruct ch; [apply returns_alloc; eauto |].
      apply returns_ret. rewrite (E4 eq_refl). eauto.
    + intros node [a' ->]. rewrite E3, Hp. simpl.
      assert (D : dtypeE (Intrinsics a' op nps)
                  = dtypeE (Intrinsics a op ps)) by (simpl; congruence).
      intros s.
      destruct (@returns_evaluateOp (Intrinsics a' op nps)) with (s := s)
        as (x & s' & E & Hx).
      { unfold supported in *. rewrite D. exact S. }
      exists x, s'. split; [exact E |].
      eapply collapsed_transfer; [exact Hx | exact D |].
      apply (interp_Intrinsics laws); assumption.
Qed.

End Dispatch_collapse.

Lemma fold_collapse (n : nat) :
  forall e, size e <= n -> isConstant e = true -> wt e = true ->
            evaluableE e = true -> nan_freeE e = true ->
            returns (foldE n e) (collapsedE e).
Proof.
  induction n as [| n IH]; intros e Hn Hc Hw He Hf.
  - destruct e; simpl in Hn; lia.
  - simpl. apply returns_visit_bind.
    apply dispatch_collapse with (n := n); assumption.
Qed.


End Collapse.

(** ** The recursion budget

    The budget is an artefact of the embedding: a budget of the size of
    the node is always enough, because no rule returns a node larger than
    the one it was given and the one node the pass builds and folds again,
    [Ramp(b + base, stride, lanes)], is smaller than the Add it stands
    for. *)

Lemma size_pos (e : Expr) : 1 <= size e.
Proof. destruct e; simpl; lia. Qed.

Lemma evaluated_size (v r : Expr) : evaluatedE v r -> size r = 1.
Proof. intros [_ [a ->]]. destruct (scalar_type (dtypeE v)); reflexivity. Qed.

Lemma folds_size_both :
  (forall e r, foldsE e r -> size r <= size e) /\
  (forall ps ps',
      folds_params BinaryOpDtype IntrinsicsDtype interp ps ps' ->
      list_sum (map size ps') <= list_sum (map size ps)).
Proof.
  apply folds_mutind; intros; simpl in *;
    try match goal with
        | H : evaluatedE _ ?r |- context [size ?r] =>
            rewrite (evaluated_size H)
        end;
    try lia.
Qed.

Lemma folds_size (e r : Expr) : foldsE e r -> size r <= size e.
Proof. apply folds_size_both. Qed.

Lemma finishes_ret {A} (a : A) : finishes (ret a).
Proof. intros s; discriminate. Qed.

Lemma finishes_throw {A} (x : Exn) : finishes (@throw A x).
Proof. intros s; discriminate. Qed.

Lemma finishes_alloc (mk : addr -> Expr) : finishes (alloc mk).
Proof. intros s; discriminate. Qed.

Lemma finishes_bind_sat {A B} (m : M A) (k : A -> M B) (P : A -> Prop) :
  finishes m -> sat m P -> (forall a, P a -> finishes (k a)) ->
  finishes (bind m k).
Proof.
  intros Hm HP Hk s. unfold bind. specialize (Hm s).
  destruct (m s) as [[a | x |] s1] eqn:E; simpl in *;
    [| discriminate | congruence].
  apply Hk. exact (HP _ _ _ E).
Qed.

Lemma finishes_bind {A B} (m : M A) (k : A -> M B) :
  finishes m -> (forall a, finishes (k a)) -> finishes (bind m k).
Proof.
  intros Hm Hk. apply finishes_bind_sat with (P := fun _ => True); auto.
  intros s a s' _; exact I.
Qed.

Lemma finishes_evaluateOp (v : Expr) : finishes (evalOp v).
Proof.
  intros s. unfold evaluateOp, bind, log. simpl.
  destruct (scalar_type (dtypeE v)); discriminate.
Qed.

Lemma finishes_newBinaryOpOfType (k : IRNodeType) (l r : Expr) (o : bool) :
  finishes (newBinaryOpOfType k l r o).
Proof. destruct k; simpl; intros s; discriminate. Qed.

Lemma finishes_rebuild (v : Expr) (op : BinOp) (l r l' r' : Expr)
    (o : bool) :
  finishes (rebuild_and_evaluate BinaryOpDtype IntrinsicsDtype interp
              v op l r l' r' o).
Proof.
  unfold rebuild_and_evaluate. apply finishes_bind.
  - destruct (negb (same_node l' l) || negb (same_node r' r));
      [apply finishes_newBinaryOpOfType | apply finishes_ret].
  - intros node. destruct (negb (isConstant l') || negb (isConstant r'));
      [apply finishes_ret | apply finishes_evaluateOp].
Qed.

Section Dispatch_finishes.

Variable rec : Expr -> M Expr.
Variable n : nat.
Hypothesis rec_finishes : forall e, size e <= n -> finishes (rec e).
Hypothesis rec_sound : forall e, sat (rec e) (foldsE e).

Lemma finishes_add_broadcast_block (x y : Expr) (m : M Expr) :
  size x + size y <= n ->
  add_broadcast_block rec x y = Some m -> finishes m.
Proof.
  intros Hn H. apply add_broadcast_block_Some in H.
  destruct H as [[_ ->] | (ab & b & k & ar & base & stride & j
                           & -> & -> & _ & ->)].
  - apply finishes_ret.
  - unfold build_ramp_and_refold.
    apply finishes_bind_sat
      with (P := fun x => exists a, x = BinaryOp a Add b base);
      [apply finishes_alloc | apply sat_alloc; eauto |].
    intros sum [a1 ->].
    apply finishes_bind_sat
      with (P := fun x => exists a,
                    x = Ramp a (BinaryOp a1 Add b base) stride j);
      [apply finishes_alloc | apply sat_alloc; eauto |].
    intros x [a2 ->]. apply rec_finishes. simpl in *. lia.
Qed.

Lemma finishes_mutate_params (ps : list Expr) :
  list_sum (map size ps) <= n -> finishes (mutate_params rec ps).
Proof.
  induction ps as [| p ps IH]; simpl; intros Hn.
  - apply finishes_ret.
  - apply finishes_bind; [apply rec_finishes; lia |]. intros p'.
    apply finishes_bind; [apply IH; lia |]. intros [[nps ch] ac].
    apply finishes_ret.
Qed.

Ltac finish_children l' r' Hl Hr :=
  eapply finishes_bind_sat;
  [apply rec_finishes; lia | apply rec_sound |];
  intros l' Hl; apply folds_size in Hl;
  eapply finishes_bind_sat;
  [apply rec_finishes; lia | apply rec_sound |];
  intros r' Hr; apply folds_size in Hr.

Lemma finishes_dispatch (e : Expr) :
  size e <= S n ->
  finishes (dispatch BinaryOpDtype IntrinsicsDtype interp rec e).
Proof.
  destruct e as [a v | a v | a st v | v | a op l r | a dt src | a v k
                 | a b st k | a op ps | a dt h i m]; simpl;
    intros Hn; try apply finishes_ret.
  - destruct op;
      try (unfold mutateBinaryOp; finish_children l' r' Hl Hr;
           apply finishes_rebuild).
    + unfold mutate_Add. finish_children l' r' Hl Hr.
      destruct (is_IntImm 0 l'); [apply finishes_ret |].
      destruct (is_IntImm 0 r'); [apply finishes_ret |].
      destruct (add_broadcast_block rec l' r') eqn:B1;
        [apply (finishes_add_broadcast_block l' r'); [lia | exact B1] |].
      destruct (add_broadcast_block rec r' l') eqn:B2;
        [apply (finishes_add_broadcast_block r' l'); [lia | exact B2] |].
      apply finishes_rebuild.
    + unfold mutate_Sub. finish_children l' r' Hl Hr.
      destruct (is_IntImm 0 r'); [apply finishes_ret |].
      apply finishes_rebuild.
    + unfold mutate_Mul. finish_children l' r' Hl Hr.
      repeat match goal with
             | |- finishes (if ?c then _ else _) =>
                 destruct c; [apply finishes_ret |]
             end.
      apply finishes_rebuild.
    + unfold mutate_Div. finish_children l' r' Hl Hr.
      destruct (is_IntImm 1 r'); [apply finishes_ret |].
      apply finishes_rebuild.
  - unfold mutate_Cast.
    destruct (isConstant src); [apply finishes_evaluateOp | apply finishes_ret].
  - unfold mutate_Broadcast.
    apply finishes_bind; [apply rec_finishes; lia |]. intros v'.
    destruct (same_node v' v); [apply finishes_ret | apply finishes_alloc].
  - unfold mutate_Ramp. finish_children b' st' Hb Hst.
    destruct (same_node b' b && same_node st' st);
      [apply finishes_ret | apply finishes_alloc].
  - unfold mutate_Intrinsics.
    apply finishes_bind; [apply finishes_mutate_params; lia |].
    intros [[nps ch] ac]. apply finishes_bind.
    + destruct ch; [apply finishes_alloc | apply finishes_ret].
    + intros node. destruct (negb ac || negb (isPure op));
        [apply finishes_ret | apply finishes_evaluateOp].
  - unfold mutate_Load. finish_children i' m' Hi Hm.
    destruct (same_node i' i && same_node m' m);
      [apply finishes_ret | apply finishes_alloc].
Qed.

End Dispatch_finishes.

(** A recursion budget of the size of the node is enough: the pass then
    ends in a node or in the exception of the evaluator. *)
Lemma fold_terminates (n : nat) :
  forall e s, size e <= n -> fst (foldE n e s) <> OutOfFuel.
Proof.
  induction n as [| n IH]; intros e s Hn.
  - pose proof (size_pos e). lia.
  - revert s. change (finishes (foldE (S n) e)). simpl.
    apply finishes_bind; [intros s; discriminate |]. intros _.
    apply finishes_dispatch with (n := n).
    + intros e' Hn' s. apply IH. exact Hn'.
    + apply fold_sound.
    + exact Hn.
Qed.

End Properties.

(** * Concrete runs *)

Module Runs.

Import Sample.
Import More_samples.

Lemma Sample_BinaryOpDtype_same (d : Dtype) : BinaryOpDtype d d = d.
Proof. reflexivity. Qed.

Lemma Sample_laws : evaluator_laws BinaryOpDtype IntrinsicsDtype interp.
Proof.
  constructor; try reflexivity.
  - intros a a' op l r l' r' Dl Vl Dr Vr. simpl.
    rewrite Dl, Vl, Vr. reflexivity.
  - intros a a0 x _. simpl. apply Z.add_0_r.
  - intros a a0 x _. simpl. apply Z.sub_0_r.
  - intros a a0 x _. simpl. destruct (interp x); reflexivity.
  - intros a a0 x D. simpl. rewrite D. simpl. apply Z.mul_1_r.
  - intros a a0 x _. simpl. apply Z.quot_1_r.
  - intros a a0 x D _. simpl. rewrite D. simpl.
    destruct (float_is_one (interp x)) eqn:E; [| reflexivity].
    unfold float_is_one in E. apply Z.eqb_eq in E. congruence.
Qed.



Lemma identity_eliminations_witness :
  (forall d, BinaryOpDtype d d = d) /\
  well_typed BinaryOpDtype IntrinsicsDtype
    (BinaryOp 1 Mul (FloatImm 2 float_one) var_x) = true /\
  same_outcome
    (fold 2 (BinaryOp 1 Mul (FloatImm 2 float_one) var_x) s0)
    (fold 1 var_x
       (visited (FloatImm 2 float_one)
          (visited (BinaryOp 1 Mul (FloatImm 2 float_one) var_x) s0))).
Proof.
  split; [exact Sample_BinaryOpDtype_same |]. split; [reflexivity |].
  apply (@identity_eliminations BinaryOpDtype IntrinsicsDtype interp
           Sample_BinaryOpDtype_same var_x 0 s0 1 2).
  reflexivity.
Defined.

(** C3, counterexample.  On [float(i + 0)] the pass returns the cast
    having visited the cast alone: the source [i + 0] was never folded,
    and the run differs from that of the rule that folds the source
    first. *)
Lemma fold_Cast_source_not_folded :
  fst (fold 3 cast_expr s0) = Ok cast_expr /\
  visits (trace (snd (fold 3 cast_expr s0))) = [cast_expr] /\
  fold 3 cast_expr s0
  <> (_ <- log (EvVisit cast_expr) ;;
      spec_mutate_Cast BinaryOpDtype IntrinsicsDtype interp (fold 2)
        cast_expr kFloat cast_src) s0.
Proof.
  split; [reflexivity |]. split; [reflexivity |].
  vm_compute. intros H. discriminate H.
Qed.

(** C5, counterexample.  The operands of [Broadcast(0, 4) + Ramp(i, 1, 4)]
    fold to a Broadcast and a Ramp, and the pass returns the Ramp operand
    itself, having built nothing; building [Ramp(0 + i, 1, 4)] and
    folding it is another run. *)
Lemma fold_Add_Broadcast_zero_Ramp_not_rebuilt :
  let s1 := snd (fold 4 (bcast 0) (visited (bcast_ramp 0) s0)) in
  let s2 := snd (fold 4 ramp s1) in
  fold 4 (bcast 0) (visited (bcast_ramp 0) s0) = (Ok (bcast 0), s1) /\
  fold 4 ramp s1 = (Ok ramp, s2) /\
  fold 5 (bcast_ramp 0) s0 = (Ok ramp, s2) /\
  next s2 = next s0 /\
  fold 5 (bcast_ramp 0) s0
  <> build_ramp_and_refold (fold 4) (IntImm 3 0) var_i (IntImm 7 1) 4 s2.
Proof.
  cbv zeta. split; [reflexivity |]. split; [reflexivity |].
  split; [reflexivity |]. split; [reflexivity |].
  vm_compute. intros H. discriminate H.
Qed.

Lemma fold_Add_Broadcast_Ramp_witness :
  exists s1 s2,
    fold 4 (bcast 5) (visited (bcast_ramp 5) s0) = (Ok (bcast 5), s1) /\
    fold 4 ramp s1 = (Ok ramp, s2) /\
    ((bcast 5 = Broadcast 5 (IntImm 3 5) 4 /\
      ramp = Ramp 6 var_i (IntImm 7 1) 4) \/
     (bcast 5 = Ramp 6 var_i (IntImm 7 1) 4 /\
      ramp = Broadcast 5 (IntImm 3 5) 4)) /\
    fold 5 (bcast_ramp 5) s0
    = if is_IntImm 0 (IntImm 3 5)
      then (Ok (Ramp 6 var_i (IntImm 7 1) 4), s2)
      else build_ramp_and_refold (fold 4) (IntImm 3 5) var_i (IntImm 7 1)
             4 s2.
Proof.
  eexists. eexists.
  split; [vm_compute; reflexivity |]. split; [vm_compute; reflexivity |].
  split; [left; split; reflexivity |].
  eapply (@fold_Add_Broadcast_Ramp BinaryOpDtype IntrinsicsDtype interp
            4 2 (bcast 5) ramp (bcast 5) ramp s0 _ _ 5 6
            (IntImm 3 5) var_i (IntImm 7 1) 4 4).
  - vm_compute; reflexivity.
  - vm_compute; reflexivity.
  - left. split; reflexivity.
Defined.

Lemma fold_Load_witness :
  exists r s',
    fold 3 load_expr s0 = (Ok r, s') /\
    exists k i' s1 m' s2,
      3 = S k /\
      fold k (BinaryOp 12 Add var_i (IntImm 13 0)) (visited load_expr s0)
      = (Ok i', s1) /\
      fold k (IntImm 14 1) s1 = (Ok m', s2) /\
      trace s' = trace s2 /\
      is_imm r = false /\
      (exists a', r = Load a' kFloat buf i' m') /\
      (i' = BinaryOp 12 Add var_i (IntImm 13 0) -> m' = IntImm 14 1 ->
       r = load_expr /\ s' = s2).
Proof.
  eexists. eexists. split; [vm_compute; reflexivity |].
  eapply (@fold_Load BinaryOpDtype IntrinsicsDtype interp).
  vm_compute; reflexivity.
Defined.

Lemma fold_idempotent_witness :
  exists r s1,
    fold 4 sum_expr s0 = (Ok r, s1) /\
    forall m s2, size r <= m ->
      exists r2 s3, fold m r s2 = (Ok r2, s3) /\ struct_eq r2 r.
Proof.
  eexists. eexists. split; [vm_compute; reflexivity |].
  eapply (@fold_idempotent BinaryOpDtype IntrinsicsDtype interp
            4 sum_expr _ s0 _).
  vm_compute; reflexivity.
Defined.

Lemma fold_preserves_dtype_witness :
  (forall d, BinaryOpDtype d d = d) /\
  well_typed BinaryOpDtype IntrinsicsDtype sum_expr = true /\
  exists r s',
    fold 4 sum_expr s0 = (Ok r, s') /\
    scalar_type (dtype BinaryOpDtype IntrinsicsDtype r)
    = scalar_type (dtype BinaryOpDtype IntrinsicsDtype sum_expr) /\
    lanes (dtype BinaryOpDtype IntrinsicsDtype r)
    = lanes (dtype BinaryOpDtype IntrinsicsDtype sum_expr).
Proof.
  split; [exact Sample_BinaryOpDtype_same |]. split; [reflexivity |].
  eexists. eexists. split; [vm_compute; reflexivity |].
  eapply (@fold_preserves_dtype BinaryOpDtype IntrinsicsDtype interp
            Sample_BinaryOpDtype_same 4 sum_expr _ s0 _).
  - reflexivity.
  - vm_compute; reflexivity.
Defined.

(** C9, counterexample.  For the kind [kCompareSelect] the factory does
    not end in an exception of its own: it throws what [evaluateOp]
    throws on a node of a scalar type it has no case for. *)
Lemma newBinaryOpOfType_throws_unsupported_dtype :
  fst (newBinaryOpOfType kCompareSelect (IntImm 1 0) (IntImm 2 0) false s0)
  <> Throw unsupported_operator /\
  fst (newBinaryOpOfType kCompareSelect (IntImm 1 0) (IntImm 2 0) false s0)
  = fst (evaluateOp BinaryOpDtype IntrinsicsDtype interp
           (Cast 3 (mkDtype Handle 1) (IntImm 2 0)) s0).
Proof. split; [intros H; discriminate H | reflexivity]. Qed.

Lemma fold_Cast_nonconstant_witness :
  isConstant cast_src = false /\
  fold 1 cast_expr s0
  = (Ok cast_expr, mkState (next s0) (EvVisit cast_expr :: trace s0)).
Proof.
  split; [reflexivity |].
  apply (@fold_Cast_nonconstant BinaryOpDtype IntrinsicsDtype interp
           0 4 kFloat cast_src s0).
  reflexivity.
Defined.

End Runs.

(** * Further properties of the pass *)

Section Further.

Variable BinaryOpDtype : Dtype -> Dtype -> Dtype.
Variable IntrinsicsDtype : IntrinsicsOp -> list Dtype -> Dtype.
Variable interp : Expr -> Z.

Local Abbreviation foldE := (fold BinaryOpDtype IntrinsicsDtype interp).
Local Abbreviation evalOp := (evaluateOp BinaryOpDtype IntrinsicsDtype interp).
Local Abbreviation dtypeE := (dtype BinaryOpDtype IntrinsicsDtype).
Local Abbreviation foldsE := (folds BinaryOpDtype IntrinsicsDtype interp).
Local Abbreviation wt := (well_typed BinaryOpDtype IntrinsicsDtype).
Local Abbreviation supp := (supported BinaryOpDtype IntrinsicsDtype).
Local Abbreviation evaluableE := (evaluable BinaryOpDtype IntrinsicsDtype).
Local Abbreviation dispatchE :=
  (dispatch BinaryOpDtype IntrinsicsDtype interp).
Local Abbreviation rebuildE :=
  (rebuild_and_evaluate BinaryOpDtype IntrinsicsDtype interp).
Local Abbreviation throwsU :=
  (throws_unsupported BinaryOpDtype IntrinsicsDtype).

(** ** The one way the pass fails *)

Lemma throwsU_ret {A} (a : A) : throwsU (ret a).
Proof. intros s x s' E; discriminate E. Qed.

Lemma throwsU_alloc (mk : addr -> Expr) : throwsU (alloc mk).
Proof. intros s x s' E; discriminate E. Qed.

Lemma throwsU_out_of_fuel {A} : throwsU (@out_of_fuel A).
Proof. intros s x s' E; discriminate E. Qed.

Lemma throwsU_bind {A B} (m : M A) (k : A -> M B) :
  throwsU m -> (forall a, throwsU (k a)) -> throwsU (bind m k).
Proof.
  intros Hm Hk s x s' E. unfold bind in E.
  destruct (m s) as [[a | y |] s1] eqn:Em.
  - exact (Hk a _ _ _ E).
  - inversion E; subst. exact (Hm _ _ _ Em).
  - discriminate E.
Qed.

Lemma throwsU_evaluateOp (v : Expr) : throwsU (evalOp v).
Proof.
  intros s x s' E. unfold evaluateOp, bind, log in E. simpl in E.
  destruct (scalar_type (dtypeE v)) eqn:St; try discriminate E.
  inversion E; subst. split; [reflexivity |].
  exists v, (trace s). split; [reflexivity |].
  unfold supported. rewrite St. reflexivity.
Qed.

Lemma throwsU_newBinaryOpOfType (op : BinOp) (l r : Expr) (o : bool) :
  throwsU (newBinaryOpOfType (expr_type op) l r o).
Proof. destruct op; apply throwsU_alloc. Qed.

Lemma throwsU_rebuild (v : Expr) (op : BinOp) (l r l' r' : Expr)
    (o : bool) :
  throwsU (rebuildE v op l r l' r' o).
Proof.
  unfold rebuild_and_evaluate. apply throwsU_bind.
  - destruct (negb (same_node l' l) || negb (same_node r' r));
      [apply throwsU_newBinaryOpOfType | apply throwsU_ret].
  - intros node. destruct (negb (isConstant l') || negb (isConstant r'));
      [apply throwsU_ret | apply throwsU_evaluateOp].
Qed.

Section Dispatch_throws.

Variable rec : Expr -> M Expr.
Hypothesis rec_throws : forall e, throwsU (rec e).

Lemma throwsU_add_broadcast_block (x y : Expr) (m : M Expr) :
  add_broadcast_block rec x y = Some m -> throwsU m.
Proof.
  intros H. apply add_broadcast_block_Some in H.
  destruct H as [[_ ->] | (ab & b & k & ar & base & stride & j
                           & -> & -> & _ & ->)].
  - apply throwsU_ret.
  - unfold build_ramp_and_refold.
    apply throwsU_bind; [apply throwsU_alloc |]. intros sum.
    apply throwsU_bind; [apply throwsU_alloc |]. intros x.
    apply rec_throws.
Qed.

Lemma throwsU_mutate_params (ps : list Expr) :
  throwsU (mutate_params rec ps).
Proof.
  induction ps as [| p ps IH]; simpl.
  - apply throwsU_ret.
  - apply throwsU_bind; [apply rec_throws |]. intros p'.
    apply throwsU_bind; [exact IH |]. intros [[nps ch] ac].
    apply throwsU_ret.
Qed.

Ltac throws_children :=
  apply throwsU_bind; [apply rec_throws |]; intros lhs;
  apply throwsU_bind; [apply rec_throws |]; intros rhs.

Lemma throwsU_dispatch (e : Expr) : throwsU (dispatchE rec e).
Proof.
  destruct e as [a v | a v | a st v | v | a op l r | a dt src | a v k
                 | a b st k | a op ps | a dt h i m]; simpl;
    try apply throwsU_ret.
  - destruct op;
      try (unfold mutateBinaryOp; throws_children; apply throwsU_rebuild).
    + unfold mutate_Add. throws_children.
      destruct (is_IntImm 0 lhs); [apply throwsU_ret |].
      destruct (is_IntImm 0 rhs); [apply throwsU_ret |].
      destruct (add_broadcast_block rec lhs rhs) eqn:B1;
        [exact (throwsU_add_broadcast_block _ _ B1) |].
      destruct (add_broadcast_block rec rhs lhs) eqn:B2;
        [exact (throwsU_add_broadcast_block _ _ B2) |].
      apply throwsU_rebuild.
    + unfold mutate_Sub. throws_children.
      destruct (is_IntImm 0 rhs); [apply throwsU_ret |].
      apply throwsU_rebuild.
    + unfold mutate_Mul. throws_children.
      repeat match goal with
             | |- throws_unsupported _ _ (if ?c then _ else _) =>
                 destruct c; [apply throwsU_ret |]
             end.
      apply throwsU_rebuild.
    + unfold mutate_Div. throws_children.
      destruct (is_IntImm 1 rhs); [apply throwsU_ret |].
      apply throwsU_rebuild.
  - unfold mutate_Cast.
    destruct (isConstant src); [apply throwsU_evaluateOp | apply throwsU_ret].
  - unfold mutate_Broadcast.
    apply throwsU_bind; [apply rec_throws |]. intros v'.
    destruct (same_node v' v); [apply throwsU_ret | apply throwsU_alloc].
  - unfold mutate_Ramp. throws_children.
    destruct (same_node lhs b && same_node rhs st);
      [apply throwsU_ret | apply throwsU_alloc].
  - unfold mutate_Intrinsics.
    apply throwsU_bind; [apply throwsU_mutate_params |].
    intros [[nps ch] ac]. apply throwsU_bind.
    + destruct ch; [apply throwsU_alloc | apply throwsU_ret].
    + intros node. destruct (negb ac || negb (isPure op));
        [apply throwsU_ret | apply throwsU_evaluateOp].
  - unfold mutate_Load. throws_children.
    destruct (same_node lhs i && same_node rhs m);
      [apply throwsU_ret | apply throwsU_alloc].
Qed.

End Dispatch_throws.

Lemma throwsU_fold (n : nat) : forall e, throwsU (foldE n e).
Proof.
  induction n as [| n IH]; intros e.
  - apply throwsU_out_of_fuel.
  - simpl. apply throwsU_bind; [intros s x s' E; discriminate E |].
    intros _. apply throwsU_dispatch. exact IH.
Qed.

(** X1.  When the pass ends in an exception, the exception is
    [unsupported_dtype], and the last thing the pass did was to hand the
    evaluator a node whose scalar type [evaluateOp] has no case for:
    nothing else in the pass fails, and the exception is never caught. *)
Theorem fold_throws_only_unsupported_dtype (n : nat) (e : Expr)
    (s s' : State) (x : Exn) :
  foldE n e s = (Throw x, s') ->
  x = unsupported_dtype /\
  exists v t, trace s' = EvEval v :: t /\ supp v = false.
Proof. apply throwsU_fold. Qed.

(** ** Budget and size *)

(** X3.  A recursion budget of the size of the node is enough for the
    pass to end, in a node or in an exception: the Ramp the Add method
    builds and folds again does not make the recursion run on. *)
Theorem fold_budget_suffices (n : nat) (e : Expr) (s : State) :
  size e <= n ->
  (exists r s', foldE n e s = (Ok r, s')) \/
  (exists x s', foldE n e s = (Throw x, s')).
Proof.
  intros Hn.
  pose proof (@fold_terminates BinaryOpDtype IntrinsicsDtype interp
                n e s Hn) as T.
  destruct (foldE n e s) as [[r | x |] s']; simpl in T; eauto.
  contradiction T; reflexivity.
Qed.

(** X4.  The node the pass returns has at most as many nodes as the one
    it was given. *)
Theorem fold_result_size (n : nat) (e r : Expr) (s s' : State) :
  foldE n e s = (Ok r, s') -> size r <= size e.
Proof.
  intros E. eapply folds_size. eapply fold_sound. exact E.
Qed.

(** X5.  The node the pass returns is folded: outside the source of a
    Cast, none of its operators has operands an identity rule applies to,
    and none of its operators, casts and pure calls has constant operands
    only; a returned node that is constant is an immediate. *)
Theorem fold_result_folded (n : nat) (e r : Expr) (s s' : State) :
  foldE n e s = (Ok r, s') ->
  folded r = true /\ (isConstant r = true -> is_imm r = true).
Proof.
  intros E.
  assert (F : folded r = true)
    by (eapply folds_folded; eapply fold_sound; exact E).
  split; [exact F |]. apply folded_constant_imm. exact F.
Qed.

(** ** Folding a folded node returns the node itself *)

Ltac split_andb :=
  repeat match goal with
         | H : _ && _ = true |- _ =>
             apply andb_prop in H; destruct H
         | H : negb _ = true |- _ => apply negb_true_iff in H
         end.

Lemma quiet_ret {A} (a : A) (P : A -> Prop) : P a -> quiet (ret a) P.
Proof. intros H s; exists a, s; auto. Qed.

Lemma quiet_bind {A B} (m : M A) (k : A -> M B) (P : A -> Prop)
    (Q : B -> Prop) :
  quiet m P -> (forall a, P a -> quiet (k a) Q) -> quiet (bind m k) Q.
Proof.
  intros Hm Hk s. destruct (Hm s) as (a & s1 & E & Ha & N1 & T1).
  rewrite (bind_step _ _ _ E).
  destruct (Hk a Ha s1) as (b & s2 & E2 & Hb & N2 & T2).
  exists b, s2. repeat split; auto; congruence.
Qed.

Lemma quiet_visit_bind {B} (e : Expr) (k : unit -> M B) (Q : B -> Prop) :
  quiet (k tt) Q -> quiet (bind (log (EvVisit e)) k) Q.
Proof.
  intros H s. unfold bind, log.
  destruct (H (mkState (next s) (EvVisit e :: trace s)))
    as (b & s2 & E2 & Hb & N2 & T2).
  exists b, s2. auto.
Qed.

Section Dispatch_quiet.

Variable rec : Expr -> M Expr.
Variable n : nat.
Hypothesis rec_quiet :
  forall e, size e <= n -> folded e = true -> quiet (rec e) (eq e).

Lemma rebuild_quiet (v : Expr) (op : BinOp) (l r : Expr) (o : bool) :
  isConstant l && isConstant r = false ->
  quiet (rebuildE v op l r l r o) (eq v).
Proof.
  intros C. unfold rebuild_and_evaluate.
  rewrite !same_node_refl. cbn [negb orb]. rewrite <- negb_andb, C.
  intros s. exists v, s. auto.
Qed.

Lemma mutate_params_quiet (ps : list Expr) :
  list_sum (map size ps) <= n -> forallb folded ps = true ->
  quiet (mutate_params rec ps)
        (eq (ps, false, forallb isConstant ps)).
Proof.
  induction ps as [| p ps IH]; simpl; intros Hn Hf.
  - apply quiet_ret. reflexivity.
  - apply andb_prop in Hf. destruct Hf as [Hp Hps].
    eapply quiet_bind; [apply rec_quiet; [lia | exact Hp] |].
    intros p' <-. eapply quiet_bind; [apply IH; [lia | exact Hps] |].
    intros acc <-. apply quiet_ret. rewrite same_node_refl. reflexivity.
Qed.

Ltac quiet_children :=
  eapply quiet_bind; [apply rec_quiet; [lia | assumption] |];
  intros ? <-;
  eapply quiet_bind; [apply rec_quiet; [lia | assumption] |];
  intros ? <-.

Lemma dispatch_quiet (e : Expr) :
  size e <= S n -> folded e = true -> quiet (dispatchE rec e) (eq e).
Proof.
  destruct e as [a v | a v | a st v | v | a op l r | a dt src | a v k
                 | a b st k | a op ps | a dt h i m]; simpl;
    intros Hn Hf; try (apply quiet_ret; reflexivity).
  - apply andb_prop in Hf. destruct Hf as [Hf Hc].
    apply andb_prop in Hf. destruct Hf as [Hf Hid].
    apply andb_prop in Hf. destruct Hf as [Fl Fr].
    apply negb_true_iff in Hc.
    destruct op;
      try (unfold mutateBinaryOp; quiet_children;
           apply rebuild_quiet; exact Hc).
    + unfold mutate_Add. quiet_children. simpl in Hid. split_andb.
      repeat match goal with H : _ = false |- _ => rewrite H end.
      rewrite !add_block_free_None by assumption.
      apply rebuild_quiet; exact Hc.
    + unfold mutate_Sub. quiet_children. simpl in Hid. split_andb.
      repeat match goal with H : _ = false |- _ => rewrite H end.
      apply rebuild_quiet; exact Hc.
    + unfold mutate_Mul. quiet_children. simpl in Hid. split_andb.
      repeat match goal with H : _ = false |- _ => rewrite H end.
      apply rebuild_quiet; exact Hc.
    + unfold mutate_Div. quiet_children. simpl in Hid. split_andb.
      repeat match goal with H : _ = false |- _ => rewrite H end.
      apply rebuild_quiet; exact Hc.
  - unfold mutate_Cast. apply negb_true_iff in Hf. rewrite Hf.
    apply quiet_ret. reflexivity.
  - unfold mutate_Broadcast.
    eapply quiet_bind; [apply rec_quiet; [lia | assumption] |].
    intros ? <-. rewrite same_node_refl. apply quiet_ret. reflexivity.
  - apply andb_prop in Hf. destruct Hf as [Fb Fst].
    unfold mutate_Ramp. quiet_children. rewrite !same_node_refl.
    apply quiet_ret. reflexivity.
  - apply andb_prop in Hf. destruct Hf as [Fps Hc].
    apply negb_true_iff in Hc.
    unfold mutate_Intrinsics.
    eapply quiet_bind; [apply mutate_params_quiet; [lia | exact Fps] |].
    intros acc <-. rewrite <- negb_andb, Hc. simpl.
    intros s. exists (Intrinsics a op ps), s. auto.
  - apply andb_prop in Hf. destruct Hf as [Fi Fm].
    unfold mutate_Load. quiet_children. rewrite !same_node_refl.
    apply quiet_ret. reflexivity.
Qed.

End Dispatch_quiet.

Lemma fold_folded_quiet (n : nat) :
  forall e, size e <= n -> folded e = true -> quiet (foldE n e) (eq e).
Proof.
  induction n as [| n IH]; intros e Hn Hf.
  - pose proof (size_pos e). lia.
  - simpl. apply quiet_visit_bind.
    apply dispatch_quiet with (n := n); assumption.
Qed.

(** X6.  Folding the node the pass returned, with a recursion budget of
    its size or more and from any state, returns that very node, and
    does so without building a node or calling the evaluator. *)
Theorem fold_twice_same_node (n : nat) (e r : Expr) (s s1 : State) :
  foldE n e s = (Ok r, s1) ->
  forall m s2, size r <= m ->
    exists s3, foldE m r s2 = (Ok r, s3) /\ next s3 = next s2 /\
               evals (trace s3) = evals (trace s2).
Proof.
  intros E m s2 Hm.
  assert (F : folded r = true)
    by (eapply folds_folded; eapply fold_sound; exact E).
  destruct (@fold_folded_quiet m r Hm F s2) as (a & s3 & E3 & <- & N & T).
  exists s3. auto.
Qed.

(** ** Calls, Max and Min, and operators no rule applies to *)

Lemma mutate_params_fold_each (rec : Expr -> M Expr) (ps : list Expr) :
  forall s ps' ch ac s1,
    mutate_params rec ps s = (Ok (ps', ch, ac), s1) ->
    fold_each rec ps ps' s s1 /\
    (ch = false -> ps' = ps) /\ (ch = true -> ps' <> ps).
Proof.
  induction ps as [| p ps IH]; intros s ps' ch ac s1 H; simpl in H.
  - inversion H; subst. repeat split; auto. discriminate.
  - apply bind_Ok in H. destruct H as (p' & sm & Hp & H).
    apply bind_Ok in H. destruct H as ([[nps ch0] ac0] & s2 & Hps & H).
    inversion H; subst; clear H.
    destruct (IH _ _ _ _ _ Hps) as (F & Hsame & Hdiff).
    split; [exists sm; auto |]. split.
    + intros E. apply orb_false_elim in E. destruct E as [Ea Eb].
      apply negb_false_iff, same_node_true in Ea.
      rewrite (Hsame Eb), Ea. reflexivity.
    + intros E L. inversion L; subst.
      rewrite same_node_refl in E. simpl in E.
      exact (Hdiff E eq_refl).
Qed.

(** X7.  An impure intrinsic call is never handed to the evaluator,
    constant though its arguments may be: the pass folds the arguments one
    after the other and returns a call of the same kind around the folded
    arguments, the original node when every argument came back as the
    node it was, a call built at the next free address otherwise. *)
Theorem fold_Intrinsics_impure (n : nat) (a : addr) (op : IntrinsicsOp)
    (ps : list Expr) (r : Expr) (s s' : State) :
  isPure op = false ->
  foldE n (Intrinsics a op ps) s = (Ok r, s') ->
  exists k ps' s1,
    n = S k /\
    fold_each (foldE k) ps ps' (visited (Intrinsics a op ps) s) s1 /\
    trace s' = trace s1 /\
    (ps' = ps -> r = Intrinsics a op ps /\ s' = s1) /\
    (ps' <> ps ->
     r = Intrinsics (next s1) op ps' /\ next s' = S (next s1)).
Proof.
  intros Hp H. destruct (fold_Ok_S _ _ _ _ _ _ H) as [k ->].
  rewrite fold_S in H. simpl in H. unfold mutate_Intrinsics in H.
  apply bind_Ok in H. destruct H as ([[ps' ch] ac] & s1 & Hps & H).
  exists k, ps', s1. rewrite Hp in H. rewrite orb_true_r in H.
  destruct (mutate_params_fold_each _ _ _ Hps) as (F & Hsame & Hdiff).
  apply bind_Ok in H. destruct H as (node & s2 & Hnode & H).
  inversion H; subst r s'; clear H.
  split; [reflexivity |]. split; [exact F |].
  destruct ch.
  - inversion Hnode; subst. split; [reflexivity |]. split.
    + intros E. exfalso. exact (Hdiff eq_refl E).
    + intros _. split; reflexivity.
  - inversion Hnode; subst. pose proof (Hsame eq_refl) as Eps. subst ps'.
    split; [reflexivity |]. split.
    + intros _. split; reflexivity.
    + intros N. exfalso. apply N. reflexivity.
Qed.


Lemma dispatch_no_identity (rec : Expr -> M Expr) (a : addr) (op : BinOp)
    (l r l' r' : Expr) (s s1 s2 : State) :
  rec l s = (Ok l', s1) -> rec r s1 = (Ok r', s2) ->
  no_identity op l' r' = true ->
  dispatchE rec (BinaryOp a op l r) s
  = rebuildE (BinaryOp a op l r) op l r l' r' (option_of op) s2.
Proof.
  intros Hl Hr Hid.
  destruct op; simpl;
    unfold mutateBinaryOp, mutate_Add, mutate_Sub, mutate_Mul, mutate_Div;
    rewrite (bind_step _ _ _ Hl), (bind_step _ _ _ Hr);
    try reflexivity; simpl in Hid; split_andb;
    repeat match goal with H : _ = false |- _ => rewrite H end;
    rewrite ?add_block_free_None by assumption; reflexivity.
Qed.

(** X9.  Where no identity rule applies to the folded operands of a
    binary operator and they are not both constant, as for [0 - x],
    [1 / x] or [x + 0.0f] with [x] a variable, the pass returns an
    operator of the same class around the folded operands without calling
    the evaluator: the original node when both operands came back as
    they were, a node built at the next free address otherwise. *)
Theorem fold_binary_no_identity (n : nat) (a : addr) (op : BinOp)
    (l r l' r' : Expr) (s s1 s2 : State) :
  foldE n l (visited (BinaryOp a op l r) s) = (Ok l', s1) ->
  foldE n r s1 = (Ok r', s2) ->
  no_identity op l' r' = true ->
  isConstant l' && isConstant r' = false ->
  exists a' s',
    foldE (S n) (BinaryOp a op l r) s = (Ok (BinaryOp a' op l' r'), s') /\
    trace s' = trace s2 /\
    (l' = l -> r' = r -> a' = a /\ s' = s2) /\
    (l' <> l \/ r' <> r -> a' = next s2 /\ next s' = S (next s2)).
Proof.
  intros Hl Hr Hid C. rewrite fold_S.
  rewrite (@dispatch_no_identity _ a op l r l' r' _ s1 s2 Hl Hr Hid).
  unfold rebuild_and_evaluate.
  rewrite <- (negb_andb (isConstant l') (isConstant r')), C. simpl.
  assert (Hnew : forall s0,
            (node <- newBinaryOpOfType (expr_type op) l' r' (option_of op) ;;
             ret node) s0
            = (Ok (BinaryOp (next s0) op l' r'),
               mkState (S (next s0)) (trace s0)))
    by (intros s0; destruct op; reflexivity).
  destruct (same_node l' l) eqn:El; destruct (same_node r' r) eqn:Er;
    cbn [negb orb].
  - apply same_node_true in El, Er. subst.
    exists a, s2. split; [reflexivity |]. split; [reflexivity |].
    split; [auto |]. intros [N | N]; exfalso; apply N; reflexivity.
  - exists (next s2), (mkState (S (next s2)) (trace s2)).
    split; [apply Hnew |]. split; [reflexivity |]. split; [| auto].
    intros _ ->. rewrite same_node_refl in Er. discriminate Er.
  - exists (next s2), (mkState (S (next s2)) (trace s2)).
    split; [apply Hnew |]. split; [reflexivity |]. split; [| auto].
    intros ->. rewrite same_node_refl in El. discriminate El.
  - exists (next s2), (mkState (S (next s2)) (trace s2)).
    split; [apply Hnew |]. split; [reflexivity |]. split; [| auto].
    intros ->. rewrite same_node_refl in El. discriminate El.
Qed.

(** X10.  The factory stores its option in a Max or a Min, as the node's
    [propagate_nans], and ignores it for every other kind. *)
Theorem newBinaryOpOfType_option (k : IRNodeType) (lhs rhs : Expr)
    (option : bool) (s : State) :
  match k with
  | kMax => fst (newBinaryOpOfType k lhs rhs option s)
            = Ok (BinaryOp (next s) (Max option) lhs rhs)
  | kMin => fst (newBinaryOpOfType k lhs rhs option s)
            = Ok (BinaryOp (next s) (Min option) lhs rhs)
  | _ => newBinaryOpOfType k lhs rhs option s
         = newBinaryOpOfType k lhs rhs (negb option) s
  end.
Proof. destruct k; reflexivity. Qed.

(** ** Identity eliminations on vectors *)

Section Vector.

Hypothesis BinaryOpDtype_idem : forall d, BinaryOpDtype d d = d.

Lemma fold_Broadcast_IntImm (k : nat) (ab a0 : addr) (z : Z) (m : nat)
    (s : State) :
  foldE (S (S k)) (Broadcast ab (IntImm a0 z) m) s
  = (Ok (Broadcast ab (IntImm a0 z) m),
     visited (IntImm a0 z) (visited (Broadcast ab (IntImm a0 z) m) s)).
Proof.
  rewrite fold_S. cbn [dispatch]. unfold mutate_Broadcast.
  rewrite (bind_step _ _ _ (fold_leaf BinaryOpDtype IntrinsicsDtype interp
                              k (IntImm a0 z) _ eq_refl)).
  rewrite same_node_refl. reflexivity.
Qed.

Lemma vector_not_IntImm (z : Z) (m : nat) (r : Expr) :
  m <> 1 -> dtypeE r = mkDtype Int m -> is_IntImm z r = false.
Proof.
  intros Hm D. destruct r; simpl; try reflexivity.
  simpl in D. inversion D. congruence.
Qed.

Lemma int_not_FloatImm_one (m : nat) (r : Expr) :
  dtypeE r = mkDtype Int m -> is_FloatImm_one r = false.
Proof. destruct r; simpl; try reflexivity. discriminate. Qed.

Lemma is_Broadcast_IntImm_struct_eq (z : Z) (ab a0 : addr) (m : nat)
    (r : Expr) :
  is_Broadcast_IntImm z r = true -> dtypeE r = mkDtype Int m ->
  struct_eq (Broadcast ab (IntImm a0 z) m) r.
Proof.
  destruct r; simpl; try discriminate. intros B D.
  destruct (is_IntImm_inv _ _ B) as [a1 ->]. simpl in D.
  inversion D. reflexivity.
Qed.

(** X11.  The vector forms of the identity rules.  For a well-formed
    sum or product of a vector of more than one lane with the Broadcast of
    the integer immediate 0, respectively 1, on either side, the pass ends
    as folding the other operand does: with a structurally equal node, the
    same allocations and no further call of the evaluator. *)
Theorem broadcast_identity_eliminations (x : Expr) (k : nat) (s : State)
    (a ab a0 : addr) (m : nat) :
  m <> 1 ->
  let on_left c op :=
    wt (BinaryOp a op c x) = true ->
    same_outcome
      (foldE (S (S (S k))) (BinaryOp a op c x) s)
      (foldE (S (S k)) x
         (snd (foldE (S (S k)) c (visited (BinaryOp a op c x) s)))) in
  let on_right c op :=
    wt (BinaryOp a op x c) = true ->
    same_outcome
      (foldE (S (S (S k))) (BinaryOp a op x c) s)
      (foldE (S (S k)) x (visited (BinaryOp a op x c) s)) in
  on_left (Broadcast ab (IntImm a0 0) m) Add /\
  on_right (Broadcast ab (IntImm a0 0) m) Add /\
  on_left (Broadcast ab (IntImm a0 1) m) Mul /\
  on_right (Broadcast ab (IntImm a0 1) m) Mul.
Proof.
  intros Hm. cbv zeta beta.
  assert (Hc : forall z s1,
             foldE (S (S k)) (Broadcast ab (IntImm a0 z) m) s1
             = (Ok (Broadcast ab (IntImm a0 z) m),
                visited (IntImm a0 z)
                  (visited (Broadcast ab (IntImm a0 z) m) s1)))
    by (intros; apply fold_Broadcast_IntImm).
  assert (Hty : forall r s1 s2, wt x = true -> dtypeE x = mkDtype Int m ->
                  foldE (S (S k)) x s1 = (Ok r, s2) ->
                  dtypeE r = mkDtype Int m).
  { intros r s1 s2 W D E.
    destruct (@fold_typed BinaryOpDtype IntrinsicsDtype interp
                BinaryOpDtype_idem _ _ _ _ _ W E) as [_ D'].
    congruence. }
  rewrite !(fold_S BinaryOpDtype IntrinsicsDtype interp (S (S k))).
  generalize dependent (foldE (S (S k))). intros rec Hc Hty.
  cbn [dispatch]. unfold mutate_Add, mutate_Mul.
  split; [| split; [| split]].
  - intros W. apply (wt_BinaryOp BinaryOpDtype IntrinsicsDtype) in W.
    destruct W as (_ & Wx & D). simpl in D.
    rewrite !Hc. rewrite (bind_step _ _ _ (Hc 0%Z _)). cbn [snd].
    unfold bind.
    destruct (rec x _) as [[r | e |] s1] eqn:E; try apply same_outcome_refl.
    pose proof (Hty _ _ _ Wx (eq_sym D) E) as Dr.
    cbn [is_IntImm]. rewrite (vector_not_IntImm 0 r Hm Dr).
    simpl. apply same_outcome_refl.
  - intros W. apply (wt_BinaryOp BinaryOpDtype IntrinsicsDtype) in W.
    destruct W as (Wx & _ & D). simpl in D.
    unfold bind at 1.
    destruct (rec x _) as [[r | e |] s1] eqn:E; try apply same_outcome_refl.
    pose proof (Hty _ _ _ Wx D E) as Dr.
    rewrite (bind_step _ _ _ (Hc 0%Z _)).
    rewrite (vector_not_IntImm 0 r Hm Dr). cbn [is_IntImm].
    destruct (is_Broadcast_IntImm 0 r) eqn:B.
    + destruct r; try discriminate B. simpl in B. simpl. rewrite B.
      unfold same_outcome; simpl. repeat split.
      apply is_Broadcast_IntImm_struct_eq; assumption.
    + assert (N : add_broadcast_block rec r
                    (Broadcast ab (IntImm a0 0) m) = None).
      { destruct r; simpl; try reflexivity. simpl in B. rewrite B.
        reflexivity. }
      rewrite N. simpl.
      unfold same_outcome; simpl. repeat split; reflexivity.
  - intros W. apply (wt_BinaryOp BinaryOpDtype IntrinsicsDtype) in W.
    destruct W as (_ & Wx & D). simpl in D.
    rewrite !Hc. rewrite (bind_step _ _ _ (Hc 1%Z _)). cbn [snd].
    unfold bind.
    destruct (rec x _) as [[r | e |] s1] eqn:E; try apply same_outcome_refl.
    pose proof (Hty _ _ _ Wx (eq_sym D) E) as Dr.
    cbn [is_IntImm is_FloatImm_one].
    rewrite (vector_not_IntImm 1 r Hm Dr), (int_not_FloatImm_one r Dr).
    simpl. apply same_outcome_refl.
  - intros W. apply (wt_BinaryOp BinaryOpDtype IntrinsicsDtype) in W.
    destruct W as (Wx & _ & D). simpl in D.
    unfold bind at 1.
    destruct (rec x _) as [[r | e |] s1] eqn:E; try apply same_outcome_refl.
    pose proof (Hty _ _ _ Wx D E) as Dr.
    rewrite (bind_step _ _ _ (Hc 1%Z _)).
    rewrite (vector_not_IntImm 1 r Hm Dr), (int_not_FloatImm_one r Dr).
    cbn [is_IntImm is_FloatImm_one].
    destruct (is_Broadcast_IntImm 1 r) eqn:B.
    + unfold same_outcome; simpl. repeat split.
      apply is_Broadcast_IntImm_struct_eq; assumption.
    + simpl. unfold same_outcome; simpl. repeat split; reflexivity.
Qed.

End Vector.

(** ** On well-formed nodes of supported scalar types the pass succeeds *)

Section Success.

Hypothesis BinaryOpDtype_idem : forall d, BinaryOpDtype d d = d.

Local Abbreviation scalar := (scalar_node BinaryOpDtype IntrinsicsDtype).

Lemma supported_dtype (e e' : Expr) :
  dtypeE e' = dtypeE e -> supp e = true -> supp e' = true.
Proof. unfold supported. intros ->. auto. Qed.

Lemma evaluable_inv (e : Expr) :
  evaluableE e = true ->
  supp e = true /\
  match e with
  | BinaryOp _ _ l r => evaluableE l = true /\ evaluableE r = true
  | Cast _ _ x => evaluableE x = true
  | Broadcast _ v _ => evaluableE v = true
  | Ramp _ b st _ => evaluableE b = true /\ evaluableE st = true
  | Intrinsics _ _ ps => forallb evaluableE ps = true
  | Load _ _ _ i m => evaluableE i = true /\ evaluableE m = true
  | _ => True
  end.
Proof.
  intros H. destruct e; cbn [evaluable] in H; apply andb_prop in H;
    destruct H as [S H]; (split; [exact S |]); try exact I; try exact H;
    apply andb_prop in H; exact H.
Qed.

Lemma evaluable_intro (e : Expr) :
  supp e = true ->
  match e with
  | BinaryOp _ _ l r => evaluableE l = true /\ evaluableE r = true
  | Cast _ _ x => evaluableE x = true
  | Broadcast _ v _ => evaluableE v = true
  | Ramp _ b st _ => evaluableE b = true /\ evaluableE st = true
  | Intrinsics _ _ ps => forallb evaluableE ps = true
  | Load _ _ _ i m => evaluableE i = true /\ evaluableE m = true
  | _ => True
  end ->
  evaluableE e = true.
Proof.
  intros S H. destruct e; cbn [evaluable]; rewrite S; cbn [andb];
    try reflexivity; try exact H; destruct H as [-> ->]; reflexivity.
Qed.

Lemma evaluated_evaluable (v r : Expr) :
  evaluated BinaryOpDtype IntrinsicsDtype interp v r ->
  evaluableE r = true.
Proof.
  intros [S [a ->]]. unfold supported in S.
  destruct (scalar_type (dtypeE v)); try discriminate S; reflexivity.
Qed.

(** The Ramp the Add method builds from a Broadcast and a Ramp of one
    dtype is well formed and of supported scalar types when they are. *)
Lemma new_Ramp_well_formed (ab ar a1 a2 : addr) (b base stride : Expr)
    (m k : nat) :
  wt (Broadcast ab b m) = true -> wt (Ramp ar base stride k) = true ->
  dtypeE (Broadcast ab b m) = dtypeE (Ramp ar base stride k) ->
  wt (Ramp a2 (BinaryOp a1 Add b base) stride k) = true /\
  dtypeE (Ramp a2 (BinaryOp a1 Add b base) stride k)
  = dtypeE (Ramp ar base stride k) /\
  (evaluableE (Broadcast ab b m) = true ->
   evaluableE (Ramp ar base stride k) = true ->
   evaluableE (Ramp a2 (BinaryOp a1 Add b base) stride k) = true).
Proof.
  intros Wb Wr D. simpl in Wb, Wr.
  apply andb_prop in Wb. destruct Wb as [Wb Sb].
  apply andb_prop in Wr. destruct Wr as [Wr Sbase].
  apply andb_prop in Wr. destruct Wr as [Wbase Wstride].
  assert (Ebb : dtypeE b = dtypeE base).
  { apply (scalar_iff BinaryOpDtype IntrinsicsDtype) in Sb, Sbase.
    apply Dtype_ext; [| congruence]. simpl in D. inversion D. auto. }
  assert (Dsum : dtypeE (BinaryOp a1 Add b base) = dtypeE base)
    by (simpl; rewrite Ebb; apply BinaryOpDtype_idem).
  split; [| split].
  - simpl. rewrite Wb, Wbase, Wstride. simpl.
    destruct (Dtype_eq_dec (dtypeE b) (dtypeE base)); [| contradiction].
    simpl. unfold scalar_node in *. simpl. simpl in Dsum. rewrite Dsum.
    exact Sbase.
  - simpl. simpl in Dsum. rewrite Dsum. reflexivity.
  - intros Eb Er. apply evaluable_inv in Eb, Er.
    destruct Eb as [_ Eb]. destruct Er as [Sr [Ebase Estride]].
    apply evaluable_intro.
    + unfold supported in *. simpl in *. rewrite Ebb, BinaryOpDtype_idem.
      exact Sr.
    + split; [| exact Estride]. apply evaluable_intro.
      * apply (evaluable_inv base) in Ebase. destruct Ebase as [Sbs _].
        eapply supported_dtype; [exact Dsum | exact Sbs].
      * auto.
Qed.

Lemma folds_evaluable_both :
  (forall e r, foldsE e r ->
     wt e = true -> evaluableE e = true -> evaluableE r = true) /\
  (forall ps ps',
     folds_params BinaryOpDtype IntrinsicsDtype interp ps ps' ->
     forallb wt ps = true -> forallb evaluableE ps = true ->
     forallb evaluableE ps' = true).
Proof.
  pose proof (@folds_typed_both BinaryOpDtype IntrinsicsDtype interp
                BinaryOpDtype_idem) as [Ty Typs].
  apply folds_mutind.
  - auto.
  - intros a l r l' r' _ IHl _ IHr _ W E.
    apply (wt_BinaryOp BinaryOpDtype IntrinsicsDtype) in W.
    apply evaluable_inv in E. tauto.
  - intros a l r l' r' _ IHl _ IHr _ W E.
    apply (wt_BinaryOp BinaryOpDtype IntrinsicsDtype) in W.
    apply evaluable_inv in E. tauto.
  - intros a l r l' r' _ IHl _ IHr _ W E.
    apply (wt_BinaryOp BinaryOpDtype IntrinsicsDtype) in W.
    apply evaluable_inv in E. tauto.
  - intros a l r l' r' _ IHl _ IHr _ W E.
    apply (wt_BinaryOp BinaryOpDtype IntrinsicsDtype) in W.
    apply evaluable_inv in E. tauto.
  - intros a l r ab b m ar base stride k a1 a2 res Fl IHl Fr IHr _ IHres W E.
    apply (wt_BinaryOp BinaryOpDtype IntrinsicsDtype) in W.
    destruct W as (Wl & Wr & D).
    apply evaluable_inv in E. destruct E as [_ [El Er]].
    destruct (Ty _ _ Fl Wl) as [Wl' Dl]. destruct (Ty _ _ Fr Wr) as [Wr' Dr].
    destruct (@new_Ramp_well_formed ab ar a1 a2 b base stride m k Wl' Wr')
      as (Wn & _ & En); [congruence |].
    apply IHres; auto.
  - intros a l r ab b m ar base stride k a1 a2 res Fl IHl Fr IHr _ IHres W E.
    apply (wt_BinaryOp BinaryOpDtype IntrinsicsDtype) in W.
    destruct W as (Wl & Wr & D).
    apply evaluable_inv in E. destruct E as [_ [El Er]].
    destruct (Ty _ _ Fl Wl) as [Wl' Dl]. destruct (Ty _ _ Fr Wr) as [Wr' Dr].
    destruct (@new_Ramp_well_formed ab ar a1 a2 b base stride m k Wr' Wl')
      as (Wn & _ & En); [congruence |].
    apply IHres; auto.
  - intros a l r l' r' _ IHl _ IHr _ W E.
    apply (wt_BinaryOp BinaryOpDtype IntrinsicsDtype) in W.
    apply evaluable_inv in E. tauto.
  - intros a l r l' r' _ IHl _ IHr _ W E.
    apply (wt_BinaryOp BinaryOpDtype IntrinsicsDtype) in W.
    apply evaluable_inv in E. tauto.
  - intros a l r l' r' _ IHl _ IHr _ W E.
    apply (wt_BinaryOp BinaryOpDtype IntrinsicsDtype) in W.
    apply evaluable_inv in E. tauto.
  - intros a l r l' r' _ IHl _ IHr _ W E.
    apply (wt_BinaryOp BinaryOpDtype IntrinsicsDtype) in W.
    apply evaluable_inv in E. tauto.
  - intros a a' op l r l' r' Fl IHl Fr IHr _ _ W E.
    apply (wt_BinaryOp BinaryOpDtype IntrinsicsDtype) in W.
    destruct W as (Wl & Wr & D).
    apply evaluable_inv in E. destruct E as [S [El Er]].
    destruct (Ty _ _ Fl Wl) as [_ Dl]. destruct (Ty _ _ Fr Wr) as [_ Dr].
    apply evaluable_intro; [| auto].
    eapply supported_dtype; [| exact S]. simpl. congruence.
  - intros. eapply evaluated_evaluable; eassumption.
  - intros. eapply evaluated_evaluable; eassumption.
  - auto.
  - intros a a' v v' n Fv IH W E. simpl in W.
    apply andb_prop in W. destruct W as [W _].
    apply evaluable_inv in E. destruct E as [S Ev].
    destruct (Ty _ _ Fv W) as [_ Dv].
    apply evaluable_intro; [| auto].
    eapply supported_dtype; [| exact S]. simpl. congruence.
  - intros a a' b st b' st' n Fb IHb Fst IHst W E. simpl in W.
    apply andb_prop in W. destruct W as [W _].
    apply andb_prop in W. destruct W as [Wb Wst].
    apply evaluable_inv in E. destruct E as [S [Eb Est]].
    destruct (Ty _ _ Fb Wb) as [_ Db].
    apply evaluable_intro; [| auto].
    eapply supported_dtype; [| exact S]. simpl. congruence.
  - intros a a' op ps ps' Fps IH _ W E. simpl in W.
    apply andb_prop in W. destruct W as [W _].
    apply evaluable_inv in E. destruct E as [S Eps].
    destruct (Typs _ _ Fps W) as [_ Dps].
    apply evaluable_intro; [| auto].
    eapply supported_dtype; [| exact S]. simpl. congruence.
  - intros. eapply evaluated_evaluable; eassumption.
  - intros a a' dt h i m i' m' _ IHi _ IHm W E. simpl in W.
    apply andb_prop in W. destruct W as [Wi Wm].
    apply evaluable_inv in E. destruct E as [S [Ei Em]].
    apply evaluable_intro; [exact S | auto].
  - auto.
  - intros p p' ps ps' _ IHp _ IHps W E. simpl in W, E.
    apply andb_prop in W, E. destruct W, E. simpl.
    rewrite IHp, IHps; auto.
Qed.

Lemma no_throw_ret {A} (a : A) : no_throw (ret a).
Proof. intros s x; discriminate. Qed.

Lemma no_throw_alloc (mk : addr -> Expr) : no_throw (alloc mk).
Proof. intros s x; discriminate. Qed.

Lemma no_throw_bind_sat {A B} (m : M A) (k : A -> M B) (P : A -> Prop) :
  no_throw m -> sat m P -> (forall a, P a -> no_throw (k a)) ->
  no_throw (bind m k).
Proof.
  intros Hm HP Hk s x. unfold bind. specialize (Hm s).
  destruct (m s) as [[a | y |] s1] eqn:E; simpl in *.
  - apply Hk. exact (HP _ _ _ E).
  - exfalso. exact (Hm y eq_refl).
  - discriminate.
Qed.

Lemma no_throw_bind {A B} (m : M A) (k : A -> M B) :
  no_throw m -> (forall a, no_throw (k a)) -> no_throw (bind m k).
Proof.
  intros Hm Hk. apply no_throw_bind_sat with (P := fun _ => True); auto.
  intros s a s' _; exact I.
Qed.

Lemma no_throw_evaluateOp (v : Expr) : supp v = true -> no_throw (evalOp v).
Proof.
  intros S s x. unfold evaluateOp, bind, log. simpl.
  unfold supported in S.
  destruct (scalar_type (dtypeE v)); try discriminate S; discriminate.
Qed.

Lemma no_throw_rebuild (a : addr) (op : BinOp) (l r l' r' : Expr)
    (o : bool) :
  dtypeE l' = dtypeE l -> dtypeE r' = dtypeE r ->
  supp (BinaryOp a op l r) = true ->
  no_throw (rebuildE (BinaryOp a op l r) op l r l' r' o).
Proof.
  intros Dl Dr S. unfold rebuild_and_evaluate.
  apply no_throw_bind_sat
    with (P := fun node => exists a' op', node = BinaryOp a' op' l' r').
  - destruct (negb (same_node l' l) || negb (same_node r' r));
      [destruct op; apply no_throw_alloc | apply no_throw_ret].
  - destruct (negb (same_node l' l) || negb (same_node r' r)) eqn:E.
    + eapply sat_weaken; [apply sat_newBinaryOpOfType |].
      intros node (a' & op' & -> & _); eauto.
    + apply sat_ret. apply orb_false_elim in E. destruct E as [E1 E2].
      apply negb_false_iff, same_node_true in E1, E2. subst; eauto.
  - intros node (a' & op' & ->).
    destruct (negb (isConstant l') || negb (isConstant r'));
      [apply no_throw_ret |].
    apply no_throw_evaluateOp.
    eapply supported_dtype; [| exact S]. simpl. congruence.
Qed.

Section Dispatch_no_throw.

Variable rec : Expr -> M Expr.
Hypothesis rec_no_throw :
  forall e, wt e = true -> evaluableE e = true -> no_throw (rec e).
Hypothesis rec_sound : forall e, sat (rec e) (foldsE e).

Lemma sat_rec_operand (e : Expr) :
  wt e = true -> evaluableE e = true ->
  sat (rec e) (fun e' => wt e' = true /\ dtypeE e' = dtypeE e /\
                         evaluableE e' = true).
Proof.
  intros W E. eapply sat_weaken; [apply rec_sound |]. intros e' F.
  destruct (proj1 (@folds_typed_both BinaryOpDtype IntrinsicsDtype interp
                     BinaryOpDtype_idem) _ _ F W) as [W' D'].
  repeat split; auto.
  exact (proj1 folds_evaluable_both _ _ F W E).
Qed.

Lemma no_throw_add_broadcast_block (x y : Expr) (m : M Expr) :
  wt x = true -> wt y = true -> dtypeE x = dtypeE y ->
  evaluableE x = true -> evaluableE y = true ->
  add_broadcast_block rec x y = Some m -> no_throw m.
Proof.
  intros Wx Wy D Ex Ey H. apply add_broadcast_block_Some in H.
  destruct H as [[_ ->] | (ab & b & k & ar & base & stride & j
                           & -> & -> & _ & ->)].
  - apply no_throw_ret.
  - unfold build_ramp_and_refold.
    apply no_throw_bind_sat
      with (P := fun x => exists a, x = BinaryOp a Add b base);
      [apply no_throw_alloc | apply sat_alloc; eauto |].
    intros sum [a1 ->].
    apply no_throw_bind_sat
      with (P := fun x => exists a,
                    x = Ramp a (BinaryOp a1 Add b base) stride j);
      [apply no_throw_alloc | apply sat_alloc; eauto |].
    intros x [a2 ->].
    destruct (@new_Ramp_well_formed ab ar a1 a2 b base stride k j Wx Wy D)
      as (Wn & _ & En).
    apply rec_no_throw; auto.
Qed.

Lemma no_throw_mutate_params (ps : list Expr) :
  forallb wt ps = true -> forallb evaluableE ps = true ->
  no_throw (mutate_params rec ps).
Proof.
  induction ps as [| p ps IH]; simpl; intros W E.
  - apply no_throw_ret.
  - apply andb_prop in W, E. destruct W as [Wp Wps], E as [Ep Eps].
    apply no_throw_bind; [apply rec_no_throw; assumption |]. intros p'.
    apply no_throw_bind; [apply IH; assumption |]. intros [[nps ch] ac].
    apply no_throw_ret.
Qed.

Ltac operand x Hx :=
  eapply no_throw_bind_sat;
  [apply rec_no_throw; assumption | apply sat_rec_operand; assumption |];
  intros x Hx.

Lemma no_throw_dispatch (e : Expr) :
  wt e = true -> evaluableE e = true -> no_throw (dispatchE rec e).
Proof.
  intros W E. pose proof (evaluable_inv _ E) as [S Ev].
  destruct e as [a v | a v | a st v | v | a op l r | a dt src | a v k
                 | a b st k | a op ps | a dt h i m]; simpl;
    try apply no_throw_ret.
  - apply (wt_BinaryOp BinaryOpDtype IntrinsicsDtype) in W.
    destruct W as (Wl & Wr & D). destruct Ev as [El Er].
    destruct op;
      try (unfold mutateBinaryOp;
           operand l' Hl; destruct Hl as (Wl' & Dl & El');
           operand r' Hr; destruct Hr as (Wr' & Dr & Er');
           apply no_throw_rebuild; assumption).
    + unfold mutate_Add.
      operand l' Hl. destruct Hl as (Wl' & Dl & El').
      operand r' Hr. destruct Hr as (Wr' & Dr & Er').
      destruct (is_IntImm 0 l'); [apply no_throw_ret |].
      destruct (is_IntImm 0 r'); [apply no_throw_ret |].
      destruct (add_broadcast_block rec l' r') eqn:B1.
      { eapply (no_throw_add_broadcast_block l' r'); eauto. congruence. }
      destruct (add_broadcast_block rec r' l') eqn:B2.
      { eapply (no_throw_add_broadcast_block r' l'); eauto. congruence. }
      apply no_throw_rebuild; assumption.
    + unfold mutate_Sub.
      operand l' Hl. destruct Hl as (Wl' & Dl & El').
      operand r' Hr. destruct Hr as (Wr' & Dr & Er').
      destruct (is_IntImm 0 r'); [apply no_throw_ret |].
      apply no_throw_rebuild; assumption.
    + unfold mutate_Mul.
      operand l' Hl. destruct Hl as (Wl' & Dl & El').
      operand r' Hr. destruct Hr as (Wr' & Dr & Er').
      repeat match goal with
             | |- no_throw (if ?c then _ else _) =>
                 destruct c; [apply no_throw_ret |]
             end.
      apply no_throw_rebuild; assumption.
    + unfold mutate_Div.
      operand l' Hl. destruct Hl as (Wl' & Dl & El').
      operand r' Hr. destruct Hr as (Wr' & Dr & Er').
      destruct (is_IntImm 1 r'); [apply no_throw_ret |].
      apply no_throw_rebuild; assumption.
  - unfold mutate_Cast.
    destruct (isConstant src);
      [apply no_throw_evaluateOp; exact S | apply no_throw_ret].
  - simpl in W. apply andb_prop in W. destruct W as [W _].
    unfold mutate_Broadcast. operand v' Hv.
    destruct (same_node v' v); [apply no_throw_ret | apply no_throw_alloc].
  - simpl in W. apply andb_prop in W. destruct W as [W _].
    apply andb_prop in W. destruct W as [Wb Wst]. destruct Ev as [Eb Est].
    unfold mutate_Ramp. operand b' Hb. operand st' Hst.
    destruct (same_node b' b && same_node st' st);
      [apply no_throw_ret | apply no_throw_alloc].
  - simpl in W. apply andb_prop in W. destruct W as [W _].
    unfold mutate_Intrinsics.
    eapply no_throw_bind_sat;
      [apply no_throw_mutate_params; assumption
      | apply sat_and;
        [apply (@sat_mutate_params_folds BinaryOpDtype IntrinsicsDtype
                  interp rec rec_sound)
        | apply (sat_mutate_params rec)] |].
    intros [[nps ch] ac] [Fps [_ Hch]]. simpl in Fps.
    destruct (proj2 (@folds_typed_both BinaryOpDtype IntrinsicsDtype interp
                       BinaryOpDtype_idem) _ _ Fps W) as [_ Dps].
    apply no_throw_bind_sat
      with (P := fun node => exists a', node = Intrinsics a' op nps).
    + destruct ch; [apply no_throw_alloc | apply no_throw_ret].
    + destruct ch; [apply sat_alloc; eauto |].
      apply sat_ret. rewrite (Hch eq_refl). eauto.
    + intros node [a' ->].
      destruct (negb ac || negb (isPure op)); [apply no_throw_ret |].
      apply no_throw_evaluateOp.
      eapply supported_dtype; [| exact S]. simpl. congruence.
  - simpl in W. apply andb_prop in W. destruct W as [Wi Wm].
    destruct Ev as [Ei Em].
    unfold mutate_Load. operand i' Hi. operand m' Hm.
    destruct (same_node i' i && same_node m' m);
      [apply no_throw_ret | apply no_throw_alloc].
Qed.

End Dispatch_no_throw.

Lemma no_throw_fold (n : nat) :
  forall e, wt e = true -> evaluableE e = true -> no_throw (foldE n e).
Proof.
  induction n as [| n IH]; intros e W E.
  - intros s x; discriminate.
  - simpl. apply no_throw_bind; [intros s x; discriminate |]. intros _.
    apply no_throw_dispatch; auto. apply fold_sound.
Qed.

(** X2.  On a well-formed node none of whose nodes has a scalar type
    outside the cases of [evaluateOp], the pass, given a recursion budget
    of the size of the node, returns a node: it throws nothing. *)
Theorem fold_succeeds (n : nat) (e : Expr) (s : State) :
  wt e = true -> evaluableE e = true -> size e <= n ->
  exists r s', foldE n e s = (Ok r, s').
Proof.
  intros W E Hn.
  pose proof (@fold_terminates BinaryOpDtype IntrinsicsDtype interp
                n e s Hn) as T.
  pose proof (@no_throw_fold n e W E s) as N.
  destruct (foldE n e s) as [[r | x |] s']; simpl in *; eauto.
  - exfalso. exact (N x eq_refl).
  - exfalso. apply T. reflexivity.
Qed.

End Success.

End Further.

(** * Further concrete runs *)

Module More_runs.

Import Sample.
Import More_samples.

Lemma fold_throws_only_unsupported_dtype_witness :
  exists s',
    fold 1 handle_cast s0 = (Throw unsupported_dtype, s') /\
    unsupported_dtype = unsupported_dtype /\
    exists v t, trace s' = EvEval v :: t /\
                supported BinaryOpDtype IntrinsicsDtype v = false.
Proof.
  eexists. split; [vm_compute; reflexivity |].
  eapply (@fold_throws_only_unsupported_dtype BinaryOpDtype IntrinsicsDtype
            interp 1 handle_cast s0 _ unsupported_dtype).
  vm_compute; reflexivity.
Defined.

Lemma fold_succeeds_witness :
  (forall d, BinaryOpDtype d d = d) /\
  well_typed BinaryOpDtype IntrinsicsDtype sum_expr = true /\
  evaluable BinaryOpDtype IntrinsicsDtype sum_expr = true /\
  size sum_expr <= 7 /\
  exists r s', fold 7 sum_expr s0 = (Ok r, s').
Proof.
  split; [exact Runs.Sample_BinaryOpDtype_same |].
  split; [reflexivity |]. split; [reflexivity |].
  split; [exact (le_n 7) |].
  apply (@fold_succeeds BinaryOpDtype IntrinsicsDtype interp
           Runs.Sample_BinaryOpDtype_same 7 sum_expr s0);
    [reflexivity | reflexivity | exact (le_n 7)].
Defined.

Lemma fold_budget_suffices_witness :
  size (bcast_ramp 5) <= 6 /\
  ((exists r s', fold 6 (bcast_ramp 5) s0 = (Ok r, s')) \/
   (exists x s', fold 6 (bcast_ramp 5) s0 = (Throw x, s'))).
Proof.
  split; [exact (le_n 6) |].
  apply (@fold_budget_suffices BinaryOpDtype IntrinsicsDtype interp
           6 (bcast_ramp 5) s0).
  exact (le_n 6).
Defined.

Lemma fold_result_size_witness :
  exists r s',
    fold 4 sum_expr s0 = (Ok r, s') /\ size r <= size sum_expr.
Proof.
  eexists. eexists. split; [vm_compute; reflexivity |].
  eapply (@fold_result_size BinaryOpDtype IntrinsicsDtype interp
            4 sum_expr _ s0 _).
  vm_compute; reflexivity.
Defined.

Lemma fold_result_folded_witness :
  exists r s',
    fold 4 sum_expr s0 = (Ok r, s') /\
    folded r = true /\ (isConstant r = true -> is_imm r = true).
Proof.
  eexists. eexists. split; [vm_compute; reflexivity |].
  eapply (@fold_result_folded BinaryOpDtype IntrinsicsDtype interp
            4 sum_expr _ s0 _).
  vm_compute; reflexivity.
Defined.

Lemma fold_twice_same_node_witness :
  exists r s1,
    fold 4 sum_expr s0 = (Ok r, s1) /\
    forall m s2, size r <= m ->
      exists s3, fold m r s2 = (Ok r, s3) /\ next s3 = next s2 /\
                 evals (trace s3) = evals (trace s2).
Proof.
  eexists. eexists. split; [vm_compute; reflexivity |].
  eapply (@fold_twice_same_node BinaryOpDtype IntrinsicsDtype interp
            4 sum_expr _ s0 _).
  vm_compute; reflexivity.
Defined.

Lemma fold_Intrinsics_impure_witness :
  isPure kRand = false /\
  exists r s',
    fold 3 rand_call s0 = (Ok r, s') /\
    exists k ps' s1,
      3 = S k /\
      fold_each (fold k)
        [BinaryOp 2 Add (IntImm 3 1) (IntImm 4 2)] ps'
        (visited rand_call s0) s1 /\
      trace s' = trace s1 /\
      (ps' = [BinaryOp 2 Add (IntImm 3 1) (IntImm 4 2)] ->
       r = rand_call /\ s' = s1) /\
      (ps' <> [BinaryOp 2 Add (IntImm 3 1) (IntImm 4 2)] ->
       r = Intrinsics (next s1) kRand ps' /\ next s' = S (next s1)).
Proof.
  split; [reflexivity |].
  eexists. eexists. split; [vm_compute; reflexivity |].
  eapply (@fold_Intrinsics_impure BinaryOpDtype IntrinsicsDtype interp).
  - reflexivity.
  - vm_compute; reflexivity.
Defined.


Lemma fold_binary_no_identity_witness :
  exists s1 s2,
    fold 1 (IntImm 2 0) (visited neg_expr s0) = (Ok (IntImm 2 0), s1) /\
    fold 1 var_i s1 = (Ok var_i, s2) /\
    no_identity Sub (IntImm 2 0) var_i = true /\
    isConstant (IntImm 2 0) && isConstant var_i = false /\
    exists a' s',
      fold 2 neg_expr s0 = (Ok (BinaryOp a' Sub (IntImm 2 0) var_i), s') /\
      trace s' = trace s2 /\
      (IntImm 2 0 = IntImm 2 0 -> var_i = var_i -> a' = 1 /\ s' = s2) /\
      (IntImm 2 0 <> IntImm 2 0 \/ var_i <> var_i ->
       a' = next s2 /\ next s' = S (next s2)).
Proof.
  eexists. eexists.
  split; [vm_compute; reflexivity |]. split; [vm_compute; reflexivity |].
  split; [reflexivity |]. split; [reflexivity |].
  eapply (@fold_binary_no_identity BinaryOpDtype IntrinsicsDtype interp
            1 1 Sub (IntImm 2 0) var_i (IntImm 2 0) var_i s0).
  - vm_compute; reflexivity.
  - vm_compute; reflexivity.
  - reflexivity.
  - reflexivity.
Defined.

Lemma broadcast_identity_eliminations_witness :
  (forall d, BinaryOpDtype d d = d) /\
  4 <> 1 /\
  well_typed BinaryOpDtype IntrinsicsDtype scaled = true /\
  same_outcome
    (fold 3 scaled s0)
    (fold 2 var_v
       (snd (fold 2 (Broadcast 2 (IntImm 3 1) 4) (visited scaled s0)))).
Proof.
  split; [exact Runs.Sample_BinaryOpDtype_same |].
  split; [intros H; discriminate H |]. split; [reflexivity |].
  apply (@broadcast_identity_eliminations BinaryOpDtype IntrinsicsDtype
           interp Runs.Sample_BinaryOpDtype_same var_v 0 s0 1 2 3 4).
  - intros H; discriminate H.
  - reflexivity.
Defined.

End More_runs.
